(** * Manga Nexus: the graph exploration engine

    A shallow embedding of the engine in [components/GraphView.tsx]
    (graph load, visibility resolver, pointer-gesture handlers) and of the
    candidate grid of [components/DiscoveryModal.tsx], with the properties
    stated about them.

    Conventions of the embedding.
    - A JS [number] of the dataset (score, strength) is read as the rational
      it denotes; the code only compares such numbers, and in the load pass
      subtracts, divides and scales node degrees.
    - Pointer coordinates are whole pixels ([Z]); [Math.hypot(dx, dy) > 5]
      is then [25 < dx*dx + dy*dy].
    - A JS [Set<string>] is a [gset string]; the [Map]s inside a graphology
      graph are [gmap]s.  The selection, which is iterated in insertion
      order, is a list.
    - An exception of graphology is a [Throw] result. *)

From Stdlib Require Import QArith.
From stdpp Require Import gmap strings list sets sorting.

Local Open Scope string_scope.
#[local] Set Warnings "-clear-no-such-hyp".

(** ** Numbers *)

Definition Qlt_bool (a b : Q) : bool := negb (Qle_bool b a).

(** ** Results of fallible graph operations *)

Inductive GraphError := NotFoundGraphError | UsageGraphError.

Inductive result (A : Type) :=
  | Ok (a : A)
  | Throw (e : GraphError).
Arguments Ok {A} a.
Arguments Throw {A} e.

Global Instance result_bind : MBind result := λ A B k r,
  match r with
  | Ok a => k a
  | Throw e => Throw e
  end.

(** [xs.forEach(cb)] where [cb] may throw. *)
Fixpoint forEachM {A S} (cb : S → A → result S) (xs : list A) (s : S) : result S :=
  match xs with
  | [] => Ok s
  | a :: xs' => s' ← cb s a ; forEachM cb xs' s'
  end.

(** ** Dataset types ([GraphView.tsx], "Types") *)

Record RawNode := {
  id : string;
  title : string;
  title_en : option string;
  image_url : string;
  score : Q;
  scored_by : N;
  genres : list string;
}.

Record RawEdge := {
  source : string;
  target : string;
  strength : Q;
}.

Record GraphData := {
  nodes : list RawNode;
  edges : list RawEdge;
}.


(** ** Sorting

    [arr.sort(cmp)] with a consistent comparator is a stable sort.  [le x y]
    stands for [cmp(x, y) <= 0]: the comparator does not ask for [y] before
    [x].  An element is inserted in front of the first element it may
    precede, so that equal elements keep their order. *)

Fixpoint sortInsert {A} (le : A → A → bool) (x : A) (sorted : list A) : list A :=
  match sorted with
  | [] => [x]
  | y :: rest => if le x y then x :: sorted else y :: sortInsert le x rest
  end.

Definition stableSort {A} (le : A → A → bool) (l : list A) : list A :=
  foldr (sortInsert le) [] l.
(** ** The graphology graph, as far as the engine uses it

    [new Graph()] is a mixed, simple graph.  [addEdge] on it inserts a
    directed edge under a generated key, and [hasEdge(s, t)] looks for [t]
    among the out-neighbours of [s].  Every node-attribute accessor throws
    [NotFoundGraphError] on a node that is not in the graph. *)

Module Graphology.

(** The attribute bag of a node: the spread dataset node, the layout
    state and the attributes the engine adds.  The attribute [k] of the
    bag is the field [a_k]; [fixed], [importance], [vx] and [vy] are absent
    until they are set.  The purely
    presentational attributes (colour, label) are left out. *)
Record NodeAttrs := {
  raw : RawNode;
  a_x : Q;
  a_y : Q;
  a_size : Q;
  a_importance : option Q;
  a_fixed : option bool;
  a_vx : option Q;
  a_vy : option Q;
}.

Record EdgeData := {
  e_source : string;
  e_target : string;
  weight : Q;
}.

Record Graph := {
  g_nodes : gmap string NodeAttrs;
  g_edges : gmap nat EdgeData;
}.

Definition empty : Graph := {| g_nodes := ∅; g_edges := ∅ |}.

Definition hasNode (g : Graph) (n : string) : bool :=
  bool_decide (is_Some (g_nodes g !! n)).

Definition order (g : Graph) : nat := base.size (g_nodes g).

Definition addNode (g : Graph) (n : string) (a : NodeAttrs) : result Graph :=
  match g_nodes g !! n with
  | Some _ => Throw UsageGraphError
  | None => Ok {| g_nodes := <[n := a]> (g_nodes g); g_edges := g_edges g |}
  end.

Definition links (s t : string) (e : EdgeData) : bool :=
  bool_decide (e_source e = s) && bool_decide (e_target e = t).

Definition edgeList (g : Graph) : list (nat * EdgeData) :=
  map_to_list (g_edges g).

Definition hasEdge (g : Graph) (s t : string) : bool :=
  hasNode g s && existsb (λ ke, links s t ke.2) (edgeList g).

Definition addEdge (g : Graph) (s t : string) (w : Q) : result Graph :=
  if negb (hasNode g s) then Throw NotFoundGraphError
  else if negb (hasNode g t) then Throw NotFoundGraphError
  else if existsb (λ ke, links s t ke.2) (edgeList g) then Throw UsageGraphError
  else Ok {| g_nodes := g_nodes g;
             g_edges := <[fresh (dom (g_edges g)) :=
                           {| e_source := s; e_target := t; weight := w |}]>
                        (g_edges g) |}.

Definition outDegree (g : Graph) (n : string) : nat :=
  length (filter (λ ke, e_source ke.2 = n) (edgeList g)).

Definition inDegree (g : Graph) (n : string) : nat :=
  length (filter (λ ke, e_target ke.2 = n) (edgeList g)).

(** The number of edge ends at [n]: a self-loop counts twice. *)
Definition degreeOf (g : Graph) (n : string) : nat :=
  (inDegree g n + outDegree g n)%nat.

Definition degree (g : Graph) (n : string) : result nat :=
  if hasNode g n then Ok (degreeOf g n) else Throw NotFoundGraphError.

Definition attachedTo (n : string) (e : EdgeData) : Prop :=
  e_source e = n ∨ e_target e = n.

Global Instance attachedTo_dec n e : Decision (attachedTo n e).
Proof. unfold attachedTo. apply _. Defined.

(** [dropNode] removes the node together with the edges attached to it. *)
Definition dropNode (g : Graph) (n : string) : result Graph :=
  if hasNode g n
  then Ok {| g_nodes := delete n (g_nodes g);
             g_edges := filter (λ ke, ¬ attachedTo n ke.2) (g_edges g) |}
  else Throw NotFoundGraphError.

Definition getNodeAttributes (g : Graph) (n : string) : result NodeAttrs :=
  match g_nodes g !! n with
  | Some a => Ok a
  | None => Throw NotFoundGraphError
  end.

(** [setNodeAttribute] and [removeNodeAttribute], for the attribute
    written by [upd]. *)
Definition updateNodeAttributes (g : Graph) (n : string)
    (upd : NodeAttrs → NodeAttrs) : result Graph :=
  match g_nodes g !! n with
  | Some a => Ok {| g_nodes := <[n := upd a]> (g_nodes g); g_edges := g_edges g |}
  | None => Throw NotFoundGraphError
  end.

Definition set_x (v : Q) (a : NodeAttrs) : NodeAttrs :=
  {| raw := raw a; a_x := v; a_y := a_y a; a_size := a_size a; a_importance := a_importance a;
     a_fixed := a_fixed a; a_vx := a_vx a; a_vy := a_vy a |}.
Definition set_y (v : Q) (a : NodeAttrs) : NodeAttrs :=
  {| raw := raw a; a_x := a_x a; a_y := v; a_size := a_size a; a_importance := a_importance a;
     a_fixed := a_fixed a; a_vx := a_vx a; a_vy := a_vy a |}.
Definition set_size (v : Q) (a : NodeAttrs) : NodeAttrs :=
  {| raw := raw a; a_x := a_x a; a_y := a_y a; a_size := v; a_importance := a_importance a;
     a_fixed := a_fixed a; a_vx := a_vx a; a_vy := a_vy a |}.
Definition set_importance (v : Q) (a : NodeAttrs) : NodeAttrs :=
  {| raw := raw a; a_x := a_x a; a_y := a_y a; a_size := a_size a; a_importance := Some v;
     a_fixed := a_fixed a; a_vx := a_vx a; a_vy := a_vy a |}.
Definition set_fixed (v : option bool) (a : NodeAttrs) : NodeAttrs :=
  {| raw := raw a; a_x := a_x a; a_y := a_y a; a_size := a_size a; a_importance := a_importance a;
     a_fixed := v; a_vx := a_vx a; a_vy := a_vy a |}.
Definition set_vx (v : Q) (a : NodeAttrs) : NodeAttrs :=
  {| raw := raw a; a_x := a_x a; a_y := a_y a; a_size := a_size a; a_importance := a_importance a;
     a_fixed := a_fixed a; a_vx := Some v; a_vy := a_vy a |}.
Definition set_vy (v : Q) (a : NodeAttrs) : NodeAttrs :=
  {| raw := raw a; a_x := a_x a; a_y := a_y a; a_size := a_size a; a_importance := a_importance a;
     a_fixed := a_fixed a; a_vx := a_vx a; a_vy := Some v |}.

Definition hasNodeAttribute_fixed (g : Graph) (n : string) : result bool :=
  a ← getNodeAttributes g n ; Ok (bool_decide (is_Some (a_fixed a))).

(** [graph.nodes()]: the keys of the node index. *)
Definition nodeKeys (g : Graph) : list string :=
  (map_to_list (g_nodes g)).*1.

(** [forceAtlas2.assign(graph, ...)]: the layout pass writes a position
    to every node that is not [fixed] and changes nothing else.  The
    positions it computes are left open as [layout]. *)
Definition forceAtlas2_assign (layout : Graph → string → Q * Q) (g : Graph) : Graph :=
  {| g_nodes := map_imap (λ n a,
       Some (match a_fixed a with
             | Some true => a
             | _ => set_x (layout g n).1 (set_y (layout g n).2 a)
             end)) (g_nodes g);
     g_edges := g_edges g |}.

End Graphology.

(** ** [GraphView.tsx] *)

Module GraphView.
Import Graphology.

Definition LOAD_MIN_SCORE : Q := 1.
Definition INITIAL_MIN_STRENGTH : Q := 0.
Definition INITIAL_DISPLAY_SCORE : Q := 6.

(** [graph.forEachNode(cb)] for a callback that may throw or drop nodes:
    the keys are visited once each, and a key dropped before its turn is
    passed over. *)
Definition forEachNodeM (cb : Graph → string → result Graph) (g : Graph) : result Graph :=
  forEachM (λ g' n, if hasNode g' n then cb g' n else Ok g') (nodeKeys g) g.

(** [xs.map(f)] for an [f] that may throw. *)
Fixpoint mapM {A B} (f : A → result B) (xs : list A) : result (list B) :=
  match xs with
  | [] => Ok []
  | a :: xs' => b ← f a ; bs ← mapM f xs' ; Ok (b :: bs)
  end.

(** [Math.min(...ds)] and [Math.max(...ds)] on node degrees.  On an empty
    list JS answers with the infinities; the load pass reads the two
    values only inside a loop over the nodes, which then does not run. *)
Definition Math_min (ds : list nat) : nat := foldr Nat.min (hd 0%nat ds) ds.
Definition Math_max (ds : list nat) : nat := foldr Nat.max 0%nat ds.

(** *** GraphLoader *)

Section GraphLoader.
(** The random radial seed position of a node, and the positions chosen
    by the settle pass. *)
Variable place : RawNode → Q * Q.
Variable layout : Graph → string → Q * Q.

Definition loadNode (st : Graph * list RawNode) (node : RawNode)
    : result (Graph * list RawNode) :=
  if Qlt_bool (score node) LOAD_MIN_SCORE then Ok st
  else if negb (hasNode st.1 (id node)) then
    graph ← addNode st.1 (id node)
              {| raw := node; a_x := (place node).1; a_y := (place node).2;
                 a_size := 3; a_importance := None; a_fixed := None;
                 a_vx := None; a_vy := None |} ;
    Ok (graph, (st.2 ++ [node])%list)
  else Ok st.

Definition loadEdge (graph : Graph) (edge : RawEdge) : result Graph :=
  if hasNode graph (source edge) && hasNode graph (target edge) then
    if negb (hasEdge graph (source edge) (target edge))
    then addEdge graph (source edge) (target edge) (strength edge)
    else Ok graph
  else Ok graph.

Definition dropIsolated (graph : Graph) (node : string) : result Graph :=
  d ← degree graph node ;
  if Nat.eqb d 0 then dropNode graph node else Ok graph.

Definition degreeRatio (degree minDegree maxDegree : nat) : Q :=
  (inject_Z (Z.of_nat degree - Z.of_nat minDegree)
   / (let span := (Z.of_nat maxDegree - Z.of_nat minDegree)%Z in
      if (span =? 0)%Z then 1 else inject_Z span))%Q.

Definition sizeNode (minDegree maxDegree : nat) (graph : Graph) (node : string)
    : result Graph :=
  d ← degree graph node ;
  let ratio := degreeRatio d minDegree maxDegree in
  let size := (3 + ratio * 12)%Q in
  graph' ← updateNodeAttributes graph node (set_size size) ;
  updateNodeAttributes graph' node (set_importance ratio).

Definition load (data : GraphData) : result (Graph * list RawNode) :=
  st ← forEachM loadNode (nodes data) (empty, []) ;
  let loadedNodes := st.2 in
  graph ← forEachM loadEdge (edges data) st.1 ;
  graph ← forEachNodeM dropIsolated graph ;
  degrees ← mapM (degree graph) (nodeKeys graph) ;
  let minDegree := Math_min degrees in
  let maxDegree := Math_max degrees in
  graph ← forEachNodeM (sizeNode minDegree maxDegree) graph ;
  let graph := if (0 <? order graph)%nat
               then forceAtlas2_assign layout graph else graph in
  Ok (graph, loadedNodes).

End GraphLoader.

(** *** InteractiveGraph: the visibility effect *)

Record FilterState := {
  minStrength : Q;
  minScore : Q;
  selectedGenres : gset string;
  isAwardWinningOnly : bool;
}.

(** The lookup of the attributes is guarded by [hasNode]; [attrs.score]
    and [attrs.weight] are numbers, on which [v || 0] is [v]. *)
Definition isNodeValid (graph : Graph) (f : FilterState) (nodeId : string) : bool :=
  match g_nodes graph !! nodeId with
  | None => false
  | Some attrs =>
      if Qlt_bool (score (raw attrs)) (minScore f) then false
      else if isAwardWinningOnly f
      then bool_decide ("Award Winning" ∈ genres (raw attrs))
      else if (0 <? base.size (selectedGenres f))%nat
      then existsb (λ g, bool_decide (g ∈ selectedGenres f)) (genres (raw attrs))
      else true
  end.

(** [graph.forEachEdge(cb)] filling [validEdges] and
    [nodesWithValidEdges]. *)
Definition strengthPass (graph : Graph) (f : FilterState) : gset nat * gset string :=
  map_fold (λ edge attrs acc,
    let w := weight attrs in
    if Qle_bool (minStrength f) w
    then ({[edge]} ∪ acc.1, {[e_source attrs]} ∪ ({[e_target attrs]} ∪ acc.2))
    else acc) (∅, ∅) (g_edges graph).

(** [graph.forEachEdge(nodeId, cb)] collecting the qualifying neighbours
    of [nodeId]: the callback runs on the edges attached to the node. *)
Definition neighborsVia (graph : Graph) (f : FilterState) (validEdges : gset nat)
    (nodeId : string) : gset string :=
  map_fold (λ edge attrs acc,
    if decide (attachedTo nodeId attrs) then
      let neighbor := if decide (e_source attrs = nodeId)
                      then e_target attrs else e_source attrs in
      if bool_decide (edge ∈ validEdges) && isNodeValid graph f neighbor
      then {[neighbor]} ∪ acc else acc
    else acc) ∅ (g_edges graph).

Definition activeNodes (graph : Graph) (f : FilterState) (selectedArray : list string)
    : gset string :=
  let validEdges := (strengthPass graph f).1 in
  let nodesWithValidEdges := (strengthPass graph f).2 in
  match selectedArray with
  | [] =>
      map_fold (λ node _ activeNodes,
        if bool_decide (node ∈ nodesWithValidEdges) && isNodeValid graph f node
        then {[node]} ∪ activeNodes else activeNodes) ∅ (g_nodes graph)
  | firstId :: rest =>
      if hasNode graph firstId then
        let candidates :=
          foldl (λ candidates nextId,
                   if hasNode graph nextId then
                     let nextNeighbors := neighborsVia graph f validEdges nextId in
                     filter (λ x, x ∈ nextNeighbors) candidates
                   else candidates)
                (neighborsVia graph f validEdges firstId) rest in
        list_to_set selectedArray ∪ candidates
      else ∅
  end.

(** **** The terms of section 4.3 of the spec *)

Definition strengthValid (f : FilterState) (e : EdgeData) : Prop :=
  (minStrength f <= weight e)%Q.

Global Instance strengthValid_dec f e : Decision (strengthValid f e).
Proof.
  unfold strengthValid.
  destruct (Qle_bool (minStrength f) (weight e)) eqn:E.
  - left. by apply Qle_bool_iff.
  - right. intros Hle. apply Qle_bool_iff in Hle. congruence.
Defined.

(** The filter of section 4.3, step 1, in the words of the spec. *)
Definition filterValid (graph : Graph) (f : FilterState) (n : string) : Prop :=
  ∃ attrs, g_nodes graph !! n = Some attrs ∧
    (minScore f <= score (raw attrs))%Q ∧
    if isAwardWinningOnly f then "Award Winning" ∈ genres (raw attrs)
    else selectedGenres f = ∅ ∨
         ∃ t, t ∈ genres (raw attrs) ∧ t ∈ selectedGenres f.

Definition otherEnd (n : string) (e : EdgeData) (m : string) : Prop :=
  (e_source e = n ∧ e_target e = m) ∨ (e_target e = n ∧ e_source e = m).

(** [m] is a qualifying neighbour of [s]: joined to it by a strength-valid
    edge, and filter-valid itself. *)
Definition qualifyingNeighbor (graph : Graph) (f : FilterState) (s m : string) : Prop :=
  ∃ k e, g_edges graph !! k = Some e ∧ otherEnd s e m ∧
         strengthValid f e ∧ filterValid graph f m.


(** *** The dataset of the scenarios of section 8 *)

Definition mkNode (i : string) (s : Q) (gs : list string) : RawNode :=
  {| id := i; title := i; title_en := None; image_url := ""; score := s;
     scored_by := 0%N; genres := gs |}.

Definition scenarioData : GraphData :=
  {| nodes := [mkNode "X" 9 []; mkNode "Y" 5 []; mkNode "Z" 7 []];
     edges := [ {| source := "X"; target := "Y"; strength := 4 # 10 |};
                {| source := "X"; target := "Z"; strength := 1 # 10 |} ] |}.

(** The graph and the node list that a load returns. *)
Definition graphOf (r : result (Graph * list RawNode)) : Graph :=
  match r with
  | Ok st => st.1
  | Throw _ => empty
  end.

Definition nodeListOf (r : result (Graph * list RawNode)) : list RawNode :=
  match r with
  | Ok st => st.2
  | Throw _ => []
  end.

(** The scenarios do not depend on positions: every node is seeded at,
    and settled to, the origin. *)
Definition atOrigin : RawNode → Q * Q := λ _, (0, 0)%Q.
Definition settled : Graph → string → Q * Q := λ _ _, (0, 0)%Q.

Definition scenarioGraph : Graph := graphOf (load atOrigin settled scenarioData).

(** The same dataset with one more title, [W], that no edge mentions. *)
Definition scenarioDataW : GraphData :=
  {| nodes := (nodes scenarioData ++ [mkNode "W" 8 []])%list;
     edges := edges scenarioData |}.

(** Scenario A, and scenarios B and C. *)
Definition filterA : FilterState :=
  {| minStrength := 2 # 10; minScore := 6; selectedGenres := ∅;
     isAwardWinningOnly := false |}.

Definition filterB : FilterState :=
  {| minStrength := 2 # 10; minScore := 1; selectedGenres := ∅;
     isAwardWinningOnly := false |}.

Definition filterC : FilterState :=
  {| minStrength := 0; minScore := 1; selectedGenres := ∅;
     isAwardWinningOnly := false |}.

(** A dataset that declares one pair in both orientations. *)
Definition bothWaysData : GraphData :=
  {| nodes := [mkNode "X" 9 []; mkNode "Y" 5 []];
     edges := [ {| source := "X"; target := "Y"; strength := 4 # 10 |};
                {| source := "Y"; target := "X"; strength := 9 # 10 |} ] |}.

(** A dataset with an award winner. *)
Definition awardData : GraphData :=
  {| nodes := [mkNode "A" 9 ["Drama"; "Award Winning"]; mkNode "B" 8 ["Action"]];
     edges := [ {| source := "A"; target := "B"; strength := 5 # 10 |} ] |}.

Definition filterAward : FilterState :=
  {| minStrength := 2 # 10; minScore := 6; selectedGenres := {["Action"]};
     isAwardWinningOnly := true |}.

(** **** The statements about a selection, as the spec words them *)

(** Section 4.3, step 4: the Active Set is the intersection of the
    qualifying neighbour sets of all selected ids, united with the
    selection. *)
Definition activeIsIntersection (graph : Graph) (f : FilterState)
    (selectedArray : list string) : Prop :=
  ∀ x, x ∈ activeNodes graph f selectedArray ↔
       x ∈ selectedArray ∨
       ∀ s, s ∈ selectedArray → qualifyingNeighbor graph f s x.

(** Section 8: the Active Set includes the selection. *)
Definition selectionShown (graph : Graph) (f : FilterState)
    (selectedArray : list string) : Prop :=
  ∀ s, s ∈ selectedArray → s ∈ activeNodes graph f selectedArray.

Definition graphW : Graph := graphOf (load atOrigin settled scenarioDataW).
Definition awardGraph : Graph := graphOf (load atOrigin settled awardData).

(** **** The statements about the loaded graph, as the spec words them *)

(** Two edges join the same unordered pair of nodes. *)
Definition samePair (e1 e2 : EdgeData) : Prop :=
  (e_source e1 = e_source e2 ∧ e_target e1 = e_target e2) ∨
  (e_source e1 = e_target e2 ∧ e_target e1 = e_source e2).

(** Section 3, Edge: at most one edge per unordered node pair. *)
Definition oneEdgePerPair (g : Graph) : Prop :=
  ∀ k1 k2 e1 e2,
    g_edges g !! k1 = Some e1 → g_edges g !! k2 = Some e2 →
    samePair e1 e2 → k1 = k2.

(** At most one edge per ordered (source, target) pair. *)
Definition oneEdgePerOrderedPair (g : Graph) : Prop :=
  ∀ k1 k2 e1 e2,
    g_edges g !! k1 = Some e1 → g_edges g !! k2 = Some e2 →
    e_source e1 = e_source e2 → e_target e1 = e_target e2 → k1 = k2.

(** [e] carries the first declaration of its ordered pair in [es]. *)
Definition firstDeclared (es : list RawEdge) (e : EdgeData) : Prop :=
  ∃ pre r post,
    es = (pre ++ r :: post)%list ∧
    source r = e_source e ∧ target r = e_target e ∧ strength r = weight e ∧
    ∀ r', r' ∈ pre → ¬ (source r' = source r ∧ target r' = target r).

(** [d] is the least, or the greatest, degree among the nodes of [g]. *)
Definition isMinDegree (g : Graph) (d : nat) : Prop :=
  (∃ n, hasNode g n = true ∧ degreeOf g n = d) ∧
  ∀ n, hasNode g n = true → (d <= degreeOf g n)%nat.

Definition isMaxDegree (g : Graph) (d : nat) : Prop :=
  (∃ n, hasNode g n = true ∧ degreeOf g n = d) ∧
  ∀ n, hasNode g n = true → (degreeOf g n <= d)%nat.

(** Section 4.1, step 5: the normalized degree, 0 when all degrees are
    equal. *)
Definition normalizedDegree (d minDegree maxDegree : nat) : Q :=
  if decide (maxDegree = minDegree) then 0
  else (inject_Z (Z.of_nat d - Z.of_nat minDegree)
        / inject_Z (Z.of_nat maxDegree - Z.of_nat minDegree))%Q.

(** A dataset that declares one pair twice in the same orientation. *)
Definition twiceData : GraphData :=
  {| nodes := [mkNode "X" 9 []; mkNode "Y" 5 []];
     edges := [ {| source := "X"; target := "Y"; strength := 4 # 10 |};
                {| source := "X"; target := "Y"; strength := 9 # 10 |} ] |}.

(** *** InteractiveGraph: the pointer-gesture handlers

    The handlers share the graph of sigma, the [dragInfoRef] cell and the
    React state they reach through callbacks; [World] gathers what they
    read and write.  [listening] records whether [handleMouseMove] and
    [handleMouseUp] are registered on the document: a primary-button
    press on a node registers them, and the release or a render of
    [GraphView] takes them off. *)

Record DragInfo := {
  nodeId : string;
  startX : Z;
  startY : Z;
  isDragging : bool;
}.

(** [sigma.getCamera().animate({x, y, ratio}, ...)] with the ratio kept. *)
Inductive CameraCommand := animate (cx cy : Q).

Inductive Cursor := cursorDefault | cursorGrab | cursorGrabbing.

Record World := {
  graph : Graph;
  dragInfoRef : option DragInfo;
  listening : bool;
  selectedNodes : list string;
  nodeList : list RawNode;
  camera : list CameraCommand;
  tooltip : option string;
  cursor : Cursor;
}.

Definition set_graph (g : Graph) (w : World) : World :=
  {| graph := g; dragInfoRef := dragInfoRef w; listening := listening w;
     selectedNodes := selectedNodes w; nodeList := nodeList w;
     camera := camera w; tooltip := tooltip w; cursor := cursor w |}.
Definition set_dragInfoRef (d : option DragInfo) (w : World) : World :=
  {| graph := graph w; dragInfoRef := d; listening := listening w;
     selectedNodes := selectedNodes w; nodeList := nodeList w;
     camera := camera w; tooltip := tooltip w; cursor := cursor w |}.
Definition set_listening (b : bool) (w : World) : World :=
  {| graph := graph w; dragInfoRef := dragInfoRef w; listening := b;
     selectedNodes := selectedNodes w; nodeList := nodeList w;
     camera := camera w; tooltip := tooltip w; cursor := cursor w |}.
Definition set_selectedNodes (s : list string) (w : World) : World :=
  {| graph := graph w; dragInfoRef := dragInfoRef w; listening := listening w;
     selectedNodes := s; nodeList := nodeList w;
     camera := camera w; tooltip := tooltip w; cursor := cursor w |}.
Definition set_camera (c : list CameraCommand) (w : World) : World :=
  {| graph := graph w; dragInfoRef := dragInfoRef w; listening := listening w;
     selectedNodes := selectedNodes w; nodeList := nodeList w;
     camera := c; tooltip := tooltip w; cursor := cursor w |}.
Definition set_tooltip (t : option string) (w : World) : World :=
  {| graph := graph w; dragInfoRef := dragInfoRef w; listening := listening w;
     selectedNodes := selectedNodes w; nodeList := nodeList w;
     camera := camera w; tooltip := t; cursor := cursor w |}.
Definition set_cursor (c : Cursor) (w : World) : World :=
  {| graph := graph w; dragInfoRef := dragInfoRef w; listening := listening w;
     selectedNodes := selectedNodes w; nodeList := nodeList w;
     camera := camera w; tooltip := tooltip w; cursor := c |}.

(** A handler runs on the world and either returns or throws; what it
    wrote before throwing stays written. *)
Definition Handler (A : Type) : Type := World → result A * World.

Global Instance handler_ret : MRet Handler := λ A a w, (Ok a, w).

Global Instance handler_bind : MBind Handler := λ A B k m w,
  match m w with
  | (Ok a, w') => k a w'
  | (Throw e, w') => (Throw e, w')
  end.

Definition get {A} (proj : World → A) : Handler A := λ w, (Ok (proj w), w).

Definition modify (f : World → World) : Handler unit := λ w, (Ok (), f w).

Definition graphRead {A} (op : Graph → result A) : Handler A :=
  λ w, (op (graph w), w).

Definition graphWrite (op : Graph → result Graph) : Handler unit := λ w,
  match op (graph w) with
  | Ok g => (Ok (), set_graph g w)
  | Throw e => (Throw e, w)
  end.

(** [handleToggleNode] of [pages/index.tsx]: the selection is a [Set],
    kept here in insertion order. *)
Definition handleToggleNode (nodeId : string) (w : World) : World :=
  if bool_decide (nodeId ∈ selectedNodes w)
  then set_selectedNodes (filter (λ s, s ≠ nodeId) (selectedNodes w)) w
  else set_selectedNodes (selectedNodes w ++ [nodeId])%list w.

(** *** Renders of [GraphView]

    [GraphView] hands [InteractiveGraph] a new [onToggleNode] function at
    every render (l.704), and the effect that holds the gesture handlers
    depends on it (l.299).  So every render of [GraphView] runs the
    cleanup of that effect (l.295-298), which takes [handleMouseMove] and
    [handleMouseUp] off the document, and runs the effect again, which
    registers the sigma events and puts nothing back on the document: a
    gesture in progress loses its listeners.  The cleanup runs once the
    handler that changed the state has returned; no handler looks at the
    registration after it has changed state, so the removal is recorded
    where the state changes. *)
Definition renderGraphView : Handler unit := modify (set_listening false).

(** [setTooltip(t)].  The tooltip is state of [GraphView]: a call that
    finds it [null] and leaves it [null] renders nothing, any other call
    renders [GraphView] ([Some] stands for a tooltip object, and an
    object is never the one of the call before). *)
Definition setTooltip (t : option string) : Handler unit :=
  cur ← get tooltip ;
  match cur, t with
  | None, None => mret ()
  | _, _ => modify (set_tooltip t) ;; renderGraphView
  end.

(** [onToggleNode] as [GraphView] has it from [Home]: [handleToggleNode]
    sets the selection of [Home] to a new [Set], so [Home] renders, and
    [GraphView] with it. *)
Definition onToggleNode (nodeId : string) : Handler unit :=
  modify (handleToggleNode nodeId) ;; renderGraphView.

(** [handleGraphToggle] of [GraphView]. *)
Definition handleGraphToggle (nodeId : string) : Handler unit :=
  nl ← get nodeList ;
  match find (λ n, bool_decide (id n = nodeId)) nl with
  | Some target => onToggleNode (id target)
  | None => mret ()
  end.

Record DownNodeEvent := {
  node : string;
  button : option Z;
  touches : list (Z * Z);
  clientX : Z;
  clientY : Z;
}.

(** The events of a gesture.  The hover events of sigma ([enterNode],
    [leaveNode]), which set the tooltip through an effect of their own
    (l.326-338), are not among them: the tooltip of a world is what they
    have left. *)
Inductive Event :=
  | DownNode (e : DownNodeEvent)
  | MouseMove (clientX clientY : Z)
  | MouseUp.

Section Handlers.
(** The camera-dependent parts of sigma: the projection of a pointer
    position (taken relative to the container) into graph space, and
    the display data of a node. *)
Variable viewportToGraph : Z * Z → Q * Q.
Variable getNodeDisplayData : Graph → string → option (Q * Q).

Definition handleFocus (nodeId : string) : Handler unit :=
  g ← get graph ;
  if negb (hasNode g nodeId) then mret ()
  else match getNodeDisplayData g nodeId with
       | None => mret ()
       | Some nodeDisplayData =>
           modify (λ w, set_camera
             (animate nodeDisplayData.1 nodeDisplayData.2 :: camera w) w)
       end.

(** [Math.hypot(dx, dy) > 5] on whole pixels. *)
Definition beyondThreshold (d : DragInfo) (clientX clientY : Z) : bool :=
  let dx := (clientX - startX d)%Z in
  let dy := (clientY - startY d)%Z in
  (25 <? dx * dx + dy * dy)%Z.

Definition startDragging (d : DragInfo) : DragInfo :=
  {| nodeId := nodeId d; startX := startX d; startY := startY d;
     isDragging := true |}.

Definition handleMouseMove (clientX clientY : Z) : Handler unit :=
  cur ← get dragInfoRef ;
  match cur with
  | None => mret ()
  | Some d =>
      (if negb (isDragging d) && beyondThreshold d clientX clientY then
         modify (set_dragInfoRef (Some (startDragging d))) ;;
         has ← graphRead (λ g, hasNodeAttribute_fixed g (nodeId d)) ;
         (if negb has
          then graphWrite (λ g, updateNodeAttributes g (nodeId d)
                                  (set_fixed (Some true)))
          else mret ()) ;;
         setTooltip None ;;
         modify (set_cursor cursorGrabbing)
       else mret ()) ;;
      cur' ← get dragInfoRef ;
      if from_option isDragging false cur' then
        let mouseGraphPos := viewportToGraph (clientX, clientY) in
        graphWrite (λ g, updateNodeAttributes g (nodeId d) (set_x mouseGraphPos.1)) ;;
        graphWrite (λ g, updateNodeAttributes g (nodeId d) (set_y mouseGraphPos.2)) ;;
        graphWrite (λ g, updateNodeAttributes g (nodeId d) (set_vx 0)) ;;
        graphWrite (λ g, updateNodeAttributes g (nodeId d) (set_vy 0))
      else mret ()
  end.

Definition handleMouseUp : Handler unit :=
  cur ← get dragInfoRef ;
  match cur with
  | None => mret ()
  | Some d =>
      (if isDragging d then
         g ← get graph ;
         if hasNode g (nodeId d)
         then graphWrite (λ g, updateNodeAttributes g (nodeId d) (set_fixed None))
         else mret ()
       else
         attrs ← graphRead (λ g, getNodeAttributes g (nodeId d)) ;
         handleGraphToggle (id (raw attrs)) ;;
         handleFocus (nodeId d)) ;;
      modify (set_dragInfoRef None) ;;
      modify (set_cursor cursorDefault) ;;
      modify (set_listening false)
  end.

Definition downNode (e : DownNodeEvent) : Handler unit :=
  if from_option (λ b, negb (b =? 0)%Z) false (button e) then mret ()
  else
    let client := match touches e with
                  | t :: _ => t
                  | [] => (clientX e, clientY e)
                  end in
    modify (set_dragInfoRef
              (Some {| nodeId := node e; startX := client.1;
                       startY := client.2; isDragging := false |})) ;;
    modify (set_listening true).

(** The document listeners receive an event only while registered:
    after a render of [GraphView] in the middle of a gesture, the moves
    and the release reach no handler. *)
Definition dispatch (ev : Event) : Handler unit :=
  match ev with
  | DownNode e => downNode e
  | MouseMove clientX clientY =>
      registered ← get listening ;
      if (registered : bool) then handleMouseMove clientX clientY else mret ()
  | MouseUp =>
      registered ← get listening ;
      if (registered : bool) then handleMouseUp else mret ()
  end.

Fixpoint run (evs : list Event) : Handler unit :=
  match evs with
  | [] => mret ()
  | ev :: evs' => dispatch ev ;; run evs'
  end.

(** A gesture on [n]: a primary-button press at [(x0, y0)], the moves
    [ms], and the release. *)
Definition press (n : string) (x0 y0 : Z) : Event :=
  DownNode {| node := n; button := Some 0%Z; touches := [];
              clientX := x0; clientY := y0 |}.

Definition moves (ms : list (Z * Z)) : list Event :=
  map (λ p, MouseMove p.1 p.2) ms.

Definition gesture (n : string) (x0 y0 : Z) (ms : list (Z * Z)) : list Event :=
  (press n x0 y0 :: moves ms ++ [MouseUp])%list.

(** The pointer is within the click threshold of the press point. *)
Definition within (x0 y0 : Z) (p : Z * Z) : Prop :=
  ((p.1 - x0) * (p.1 - x0) + (p.2 - y0) * (p.2 - y0) <= 25)%Z.

End Handlers.

(** A world around the scenario graph, and the display data sigma keeps
    for it: the position of each node. *)
Definition positionOf (g : Graph) (n : string) : option (Q * Q) :=
  (λ a, (a_x a, a_y a)) <$> g_nodes g !! n.

Definition pixelsToGraph (p : Z * Z) : Q * Q := (inject_Z p.1, inject_Z p.2).

Definition scenarioWorld : World :=
  {| graph := scenarioGraph;
     dragInfoRef := None; listening := false;
     selectedNodes := [];
     nodeList := nodeListOf (load atOrigin settled scenarioData);
     camera := []; tooltip := None; cursor := cursorDefault |}.

(** The tracked node leaves the graph in the middle of a gesture. *)
Definition removeNode (n : string) (w : World) : World :=
  match dropNode (graph w) n with
  | Ok g => set_graph g w
  | Throw _ => w
  end.

Definition strandedArmed : World :=
  removeNode "Y" (run pixelsToGraph positionOf [press "Y" 10 10] scenarioWorld).2.

Definition strandedDragging : World :=
  removeNode "Y"
    (run pixelsToGraph positionOf [press "Y" 10 10; MouseMove 100 100]
       scenarioWorld).2.

(** *** Invariants of the load passes and of a gesture *)

(** What the node pass establishes of a node [n] with attributes [a]. *)
Definition nodeOk (n : string) (a : NodeAttrs) : Prop :=
  id (raw a) = n ∧ (LOAD_MIN_SCORE <= score (raw a))%Q.

Definition listed (st : Graph * list RawNode) : Prop :=
  ∀ n, is_Some (g_nodes st.1 !! n) → ∃ r, r ∈ st.2 ∧ id r = n.

Definition endsAreNodes (g : Graph) : Prop :=
  ∀ k e, g_edges g !! k = Some e →
         hasNode g (e_source e) = true ∧ hasNode g (e_target e) = true.

(** Every declaration of [es] between two nodes has an edge for its
    ordered pair. *)
Definition declaredLinked (es : list RawEdge) (g : Graph) : Prop :=
  ∀ r, r ∈ es → hasNode g (source r) = true → hasNode g (target r) = true →
       ∃ k e, g_edges g !! k = Some e ∧
              e_source e = source r ∧ e_target e = target r.

Record edgesInv (processed : list RawEdge) (g : Graph) : Prop := {
  inv_unique : oneEdgePerOrderedPair g;
  inv_ends : endsAreNodes g;
  inv_first : ∀ k e, g_edges g !! k = Some e → firstDeclared processed e;
  inv_linked : declaredLinked processed g;
}.

(** The attributes of a node of degree [d] after the size pass. *)
Definition sized (minDegree maxDegree d : nat) (a : NodeAttrs) : NodeAttrs :=
  let ratio := degreeRatio d minDegree maxDegree in
  set_importance ratio (set_size (3 + ratio * 12) a).


(** *** More about the node pass *)

(** [r] reaches the score floor, and no node before it in [ns] with the
    same id does. *)
Definition firstPassing (ns : list RawNode) (r : RawNode) : Prop :=
  (LOAD_MIN_SCORE <= score r)%Q ∧
  ∃ pre post, ns = (pre ++ r :: post)%list ∧
    ∀ x, x ∈ pre → id x = id r → (score x < LOAD_MIN_SCORE)%Q.

(** The attributes a node is added with. *)
Definition freshAttrs (a : NodeAttrs) : Prop :=
  a_importance a = None ∧ a_fixed a = None ∧ a_vx a = None ∧ a_vy a = None.

(** The state of the node pass after the nodes [processed]. *)
Record nodesInv (processed : list RawNode) (st : Graph * list RawNode) : Prop := {
  ni_edges : g_edges st.1 = ∅;
  ni_dom : ∀ n, is_Some (g_nodes st.1 !! n) ↔ ∃ r, r ∈ st.2 ∧ id r = n;
  ni_raw : ∀ n a, g_nodes st.1 !! n = Some a →
                  raw a ∈ st.2 ∧ id (raw a) = n ∧ freshAttrs a;
  ni_nodup : NoDup (id <$> st.2);
  ni_sub : sublist st.2 processed;
  ni_first : ∀ r, r ∈ st.2 → firstPassing processed r;
  ni_all : ∀ r, r ∈ processed → (LOAD_MIN_SCORE <= score r)%Q →
                ∃ r', r' ∈ st.2 ∧ id r' = id r;
}.

(** The id [n] is in the node list [nl]. *)
Definition listedIn (nl : list RawNode) (n : string) : Prop :=
  ∃ r, r ∈ nl ∧ id r = n.

(** *** InteractiveGraph: the reducers set on sigma

    The display data the reducers receive and return, as far as they
    write it; an absent field of the data is [None]. *)

Record NodeDisplayData := {
  nd_hidden : option bool;
  nd_label : string;
  nd_zIndex : option Z;
  nd_borderColor : option string;
  nd_borderSize : option Z;
}.

Record EdgeDisplayData := {
  ed_hidden : option bool;
  ed_color : option string;
  ed_zIndex : option Z;
  ed_size : option Q;
}.

Definition nodeReducer (activeNodes : gset string) (selectedNodes : list string)
    (node : string) (data : NodeDisplayData) : NodeDisplayData :=
  if negb (bool_decide (node ∈ activeNodes)) then
    {| nd_hidden := Some true; nd_label := "";
       nd_zIndex := nd_zIndex data; nd_borderColor := nd_borderColor data;
       nd_borderSize := nd_borderSize data |}
  else if bool_decide (node ∈ selectedNodes) then
    {| nd_hidden := Some false; nd_label := nd_label data;
       nd_zIndex := Some 20%Z; nd_borderColor := Some "#333";
       nd_borderSize := Some 3%Z |}
  else
    {| nd_hidden := Some false; nd_label := nd_label data;
       nd_zIndex := Some 10%Z; nd_borderColor := Some "transparent";
       nd_borderSize := Some 0%Z |}.

(** [graph.extremities(edge)]. *)
Definition extremities (g : Graph) (edge : nat) : result (string * string) :=
  match g_edges g !! edge with
  | Some e => Ok (e_source e, e_target e)
  | None => Throw NotFoundGraphError
  end.

Definition hideEdge (data : EdgeDisplayData) : EdgeDisplayData :=
  {| ed_hidden := Some true; ed_color := ed_color data;
     ed_zIndex := ed_zIndex data; ed_size := ed_size data |}.

Definition edgeReducer (graph : Graph) (validEdges : gset nat)
    (activeNodes : gset string) (selectedNodes : list string)
    (edge : nat) (data : EdgeDisplayData) : result EdgeDisplayData :=
  if negb (bool_decide (edge ∈ validEdges)) then Ok (hideEdge data)
  else
    ends ← extremities graph edge ;
    if bool_decide (ends.1 ∈ activeNodes) && bool_decide (ends.2 ∈ activeNodes) then
      if bool_decide (ends.1 ∈ selectedNodes) || bool_decide (ends.2 ∈ selectedNodes)
      then Ok {| ed_hidden := Some false; ed_color := Some "#64748b";
                 ed_zIndex := Some 10%Z; ed_size := Some 2%Q |}
      else Ok {| ed_hidden := Some false; ed_color := Some "#e2e8f0";
                 ed_zIndex := Some 0%Z; ed_size := Some (5 # 10)%Q |}
    else Ok (hideEdge data).

(** The reducers the visibility effect installs for a filter state and a
    selection. *)
Definition nodeReducerFor (graph : Graph) (f : FilterState)
    (selectedArray : list string) : string → NodeDisplayData → NodeDisplayData :=
  nodeReducer (activeNodes graph f selectedArray) selectedArray.

Definition edgeReducerFor (graph : Graph) (f : FilterState)
    (selectedArray : list string) : nat → EdgeDisplayData → result EdgeDisplayData :=
  edgeReducer graph (strengthPass graph f).1 (activeNodes graph f selectedArray)
    selectedArray.

(** *** GraphView: the filter switches *)

Definition toggleGenreFilter (genre : string) (prev : gset string) : gset string :=
  if bool_decide (genre ∈ prev) then prev ∖ {[genre]} else {[genre]} ∪ prev.

Definition clearGenreFilter : gset string := ∅.

Definition toggleAwardWinningOnly (prev : bool) : bool := negb prev.

(** A filter state with its genre set, or its award switch, replaced. *)
Definition withGenres (s : gset string) (f : FilterState) : FilterState :=
  {| minStrength := minStrength f; minScore := minScore f;
     selectedGenres := s; isAwardWinningOnly := isAwardWinningOnly f |}.

Definition withThresholds (strength score : Q) (f : FilterState) : FilterState :=
  {| minStrength := strength; minScore := score;
     selectedGenres := selectedGenres f;
     isAwardWinningOnly := isAwardWinningOnly f |}.

(** *** What the pointer handlers keep *)

(** [g'] has the edges and the nodes of [g], and every node has kept its
    dataset record, its size and its importance. *)
Definition sameStructure (g g' : Graph) : Prop :=
  g_edges g' = g_edges g ∧
  ∀ n, match g_nodes g !! n, g_nodes g' !! n with
       | Some a, Some a' =>
           raw a' = raw a ∧ a_size a' = a_size a ∧
           a_importance a' = a_importance a
       | None, None => True
       | _, _ => False
       end.

(** The selection is a set, and a set of listed ids. *)
Definition selectionOk (w : World) : Prop :=
  NoDup (selectedNodes w) ∧
  ∀ s, s ∈ selectedNodes w → listedIn (nodeList w) s.

Definition steady (w w' : World) : Prop :=
  sameStructure (graph w) (graph w') ∧
  nodeList w' = nodeList w ∧
  (selectionOk w → selectionOk w').

(** A handler keeps the graph structure, the node list and the shape of
    the selection, whether it returns or throws. *)
Definition keeps {A} (m : Handler A) : Prop := ∀ w, steady w (m w).2.

(** The attributes of a node after the position writes of a drag. *)
Definition dragged (pos : Q * Q) (a : NodeAttrs) : NodeAttrs :=
  set_vy 0 (set_vx 0 (set_y pos.2 (set_x pos.1 a))).

(** An event that does not start a gesture: a move, a release, or a
    press with another button than the primary one. *)
Definition idleEvent (ev : Event) : Prop :=
  match ev with
  | DownNode e => from_option (λ b, b ≠ 0%Z) False (button e)
  | MouseMove _ _ => True
  | MouseUp => True
  end.

(** The world in the middle of a drag of [n], pressed at [(x0, y0)] in
    the world [w] where its attributes were [a], when the last move was
    to [q]; and the world after the release. *)
Definition midDragWorld (viewportToGraph : Z * Z → Q * Q)
    (n : string) (x0 y0 : Z) (a : NodeAttrs) (q : Z * Z) (w : World) : World :=
  {| graph :=
       {| g_nodes := <[n := dragged (viewportToGraph q) (set_fixed (Some true) a)]>
                       (g_nodes (graph w));
          g_edges := g_edges (graph w) |};
     dragInfoRef := Some {| nodeId := n; startX := x0; startY := y0;
                            isDragging := true |};
     listening := true;
     selectedNodes := selectedNodes w; nodeList := nodeList w;
     camera := camera w; tooltip := None; cursor := cursorGrabbing |}.

Definition afterDragWorld (viewportToGraph : Z * Z → Q * Q)
    (n : string) (a : NodeAttrs) (q : Z * Z) (w : World) : World :=
  {| graph :=
       {| g_nodes := <[n := dragged (viewportToGraph q) a]> (g_nodes (graph w));
          g_edges := g_edges (graph w) |};
     dragInfoRef := None;
     listening := false;
     selectedNodes := selectedNodes w; nodeList := nodeList w;
     camera := camera w; tooltip := None; cursor := cursorDefault |}.

(** *** GraphView: the callbacks handed to the panels *)

(** [xs.forEach(cb)] for a callback on the world. *)
Fixpoint forEachH {A} (cb : A → Handler unit) (xs : list A) : Handler unit :=
  match xs with
  | [] => mret ()
  | a :: xs' => cb a ;; forEachH cb xs'
  end.

(** [handleClear] of [pages/index.tsx], as far as the selection goes:
    the selection of [Home] is set to a new [Set], so [Home] renders, and
    [GraphView] with it. *)
Definition onClearSelection : Handler unit :=
  modify (set_selectedNodes []) ;; renderGraphView.

(** [handleDiscoveryComplete]: the selection is cleared, and the ids are
    toggled in once the timeout fires. *)
Definition handleDiscoveryComplete (selectedIds : list string) : Handler unit :=
  onClearSelection ;;
  forEachH (λ i,
    nl ← get nodeList ;
    match find (λ n, bool_decide (id n = i)) nl with
    | Some target => onToggleNode (id target)
    | None => mret ()
    end) selectedIds.

(** *** GraphView: the genre list of the filter dialog *)

(** [genreSet.add(g)] on a [Set] kept in insertion order. *)
Definition setAdd (g : string) (genreSet : list string) : list string :=
  if bool_decide (g ∈ genreSet) then genreSet else (genreSet ++ [g])%list.

Definition collectGenres (ns : list RawNode) : list string :=
  foldl (λ genreSet n,
           foldl (λ genreSet g,
                    if bool_decide (g ≠ "Award Winning")
                    then setAdd g genreSet else genreSet)
                 genreSet (genres n))
        [] ns.

(** [Array.from(genreSet).sort()]: the default order of [sort] compares
    code units, which on the ASCII names of genres is [String.leb]. *)
Definition allGenresOf (json : GraphData) : list string :=
  stableSort String.leb (collectGenres (nodes json)).

End GraphView.

(** ** [DiscoveryModal.tsx] *)

Module DiscoveryModal.

Record SearchableNode := {
  id : string;
  title : string;
  title_en : option string;
  score : Q;
  image_url : string;
  genres : list string;
}.

Definition GRID_SIZE : nat := 25.

Definition isCandidate (n : SearchableNode) : bool :=
  let isHighScore := Qle_bool 8 (score n) in
  let isAwardWinning := bool_decide ("Award Winning" ∈ genres n) in
  isHighScore || isAwardWinning.

Definition candidates (nodeList : list SearchableNode) : list SearchableNode :=
  List.filter isCandidate nodeList.

(** [refreshNodes]: [shuffle] is the order in which one call of
    [sort(() => 0.5 - Math.random())] leaves the copy of the candidates. *)
Definition refreshNodes (shuffle : list SearchableNode → list SearchableNode)
    (nodeList displayedNodes : list SearchableNode) : list SearchableNode :=
  if (length (candidates nodeList) =? 0)%nat then displayedNodes
  else take GRID_SIZE (shuffle (candidates nodeList)).

(** The grid after a series of refreshes, starting from the grid
    [displayedNodes]. *)
Definition refreshes (shuffles : list (list SearchableNode → list SearchableNode))
    (nodeList displayedNodes : list SearchableNode) : list SearchableNode :=
  foldl (λ shown shuffle, refreshNodes shuffle nodeList shown)
        displayedNodes shuffles.

(** The pool in the words of the claim. *)
Definition inPool (nodeList : list SearchableNode) (n : SearchableNode) : Prop :=
  n ∈ nodeList ∧ ((8 <= score n)%Q ∨ "Award Winning" ∈ genres n).

Definition sampleNode (i : string) (s : Q) (gs : list string) : SearchableNode :=
  {| id := i; title := i; title_en := None; score := s; image_url := "";
     genres := gs |}.

Definition sampleList : list SearchableNode :=
  [ sampleNode "A" 9 []; sampleNode "B" 7 ["Award Winning"];
    sampleNode "C" 5 ["Action"] ].

End DiscoveryModal.

(** ** [pages/index.tsx] *)

Module Home.

(** [MangaNode] of the detail panel. *)
Record MangaNode := {
  id : string;
  title : string;
  title_en : option string;
  image_url : string;
  score : Q;
  scored_by : N;
  genres : list string;
  label : option string;
  author : option string;
  description : option string;
}.

Record State := {
  selectedNodes : list string;
  lastSelectedNode : option MangaNode;
  isDiscoveryOpen : bool;
}.

(** The selection is a [Set], kept here in insertion order; the detail
    panel is shown while [lastSelectedNode] is set. *)
Definition handleToggleNode (node : MangaNode) (st : State) : State :=
  if bool_decide (id node ∈ selectedNodes st) then
    {| selectedNodes := filter (λ s, s ≠ id node) (selectedNodes st);
       lastSelectedNode :=
         if bool_decide ((id <$> lastSelectedNode st) = Some (id node))
         then None else lastSelectedNode st;
       isDiscoveryOpen := isDiscoveryOpen st |}
  else
    {| selectedNodes := (selectedNodes st ++ [id node])%list;
       lastSelectedNode := Some node;
       isDiscoveryOpen := isDiscoveryOpen st |}.

Definition handleClear (st : State) : State :=
  {| selectedNodes := []; lastSelectedNode := None;
     isDiscoveryOpen := isDiscoveryOpen st |}.

Definition setIsDiscoveryOpen (b : bool) (st : State) : State :=
  {| selectedNodes := selectedNodes st; lastSelectedNode := lastSelectedNode st;
     isDiscoveryOpen := b |}.

Inductive Action :=
  | Toggle (node : MangaNode)
  | Clear
  | OpenDiscovery
  | CloseDiscovery.

Definition act (st : State) (a : Action) : State :=
  match a with
  | Toggle node => handleToggleNode node st
  | Clear => handleClear st
  | OpenDiscovery => setIsDiscoveryOpen true st
  | CloseDiscovery => setIsDiscoveryOpen false st
  end.

Definition initial : State :=
  {| selectedNodes := []; lastSelectedNode := None; isDiscoveryOpen := false |}.

(** The selection has no repeated id, and the node of the detail panel,
    if any, is selected. *)
Definition consistent (st : State) : Prop :=
  NoDup (selectedNodes st) ∧
  ∀ node, lastSelectedNode st = Some node → id node ∈ selectedNodes st.

Definition sampleNode (i : string) : MangaNode :=
  {| id := i; title := i; title_en := None; image_url := ""; score := 7;
     scored_by := 0%N; genres := []; label := Some i; author := Some "";
     description := Some "" |}.

End Home.

(** ** [ControlPanel.tsx]

    [SearchableNode] is the type that [DiscoveryModal] imports from here.
    [GraphView] hands its list of dataset nodes over as a list of
    [SearchableNode]: the panel reads the fields of that type only. *)

Module ControlPanel.
Import Graphology GraphView.

Abbreviation SearchableNode := DiscoveryModal.SearchableNode.

Definition asSearchable (r : RawNode) : SearchableNode :=
  {| DiscoveryModal.id := id r;
     DiscoveryModal.title := title r;
     DiscoveryModal.title_en := title_en r;
     DiscoveryModal.score := score r;
     DiscoveryModal.image_url := image_url r;
     DiscoveryModal.genres := genres r |}.

(** [(a, b) => b.score - a.score]: [a] may come before [b] when its score
    is not the smaller one. *)
Definition byScoreDesc (a b : SearchableNode) : bool :=
  Qle_bool (DiscoveryModal.score b) (DiscoveryModal.score a).

(** No entry has a lower score than a later one. *)
Definition bestFirst (l : list SearchableNode) : Prop :=
  StronglySorted (λ a b, (DiscoveryModal.score b <= DiscoveryModal.score a)%Q) l.

Section search.
(** [s.toLowerCase()] and [s.includes(sub)] of the JS runtime. *)
Variable toLowerCase : string → string.
Variable includes : string → string → bool.

Definition matchesQuery (lower : string) (n : SearchableNode) : bool :=
  let t1 := toLowerCase (DiscoveryModal.title n) in
  let t2 := from_option toLowerCase "" (DiscoveryModal.title_en n) in
  includes t1 lower || includes t2 lower.

Definition suggestions (searchQuery : string) (nodeList : list SearchableNode)
    : list SearchableNode :=
  if bool_decide (searchQuery = "") then []
  else
    let lower := toLowerCase searchQuery in
    take 8 (stableSort byScoreDesc (List.filter (matchesQuery lower) nodeList)).
End search.

Definition selectedNodeObjects (nodeList : list SearchableNode)
    (selectedNodes : list string) : list SearchableNode :=
  filter (λ n, DiscoveryModal.id n ∈ selectedNodes) nodeList.

Definition relatedNodeObjects (nodeList : list SearchableNode)
    (selectedNodes : list string) (visibleNodeIds : gset string)
    : list SearchableNode :=
  if (length selectedNodes =? 0)%nat then []
  else stableSort byScoreDesc
         (filter (λ n, DiscoveryModal.id n ∈ visibleNodeIds ∧
                       DiscoveryModal.id n ∉ selectedNodes) nodeList).

(** The search box. *)
Record PanelState := {
  searchQuery : string;
  showSuggestions : bool;
}.

Section handlers.
Variable getNodeDisplayData : Graph → string → option (Q * Q).

(** [onToggleNode] is [handleGraphToggle] and [focusOnNode] the focus
    function of the graph. *)
Definition handleSelectSuggestion (node : SearchableNode) : Handler PanelState :=
  sel ← get selectedNodes ;
  (if negb (bool_decide (DiscoveryModal.id node ∈ sel))
   then handleGraphToggle (DiscoveryModal.id node) else mret ()) ;;
  handleFocus getNodeDisplayData (DiscoveryModal.id node) ;;
  mret {| searchQuery := ""; showSuggestions := false |}.
End handlers.

(** String functions for the examples: no capital is folded, and
    [includes] looks for an occurrence. *)
Definition sameCase (s : string) : string := s.
Definition occursIn (s sub : string) : bool :=
  bool_decide (is_Some (String.index 0 sub s)).

(** A node list for the examples. *)
Definition sampleList : list SearchableNode :=
  asSearchable <$> [mkNode "Akira" 9 []; mkNode "Berserk" 9 []; mkNode "Claymore" 7 []].

End ControlPanel.
(** * Properties *)

(** A decidable statement about concrete data is settled by evaluating
    its decision procedure. *)
Ltac by_evaluation := apply (bool_decide_unpack _); vm_compute; exact I.

(** ** Numbers *)

Lemma Qlt_bool_false (a b : Q) : Qlt_bool a b = false ↔ (b <= a)%Q.
Proof.
  unfold Qlt_bool. rewrite negb_false_iff. apply Qle_bool_iff.
Qed.

Lemma Qlt_bool_true (a b : Q) : Qlt_bool a b = true ↔ (a < b)%Q.
Proof.
  unfold Qlt_bool. rewrite negb_true_iff. split.
  - intros H. apply Qnot_le_lt. intros Hle.
    apply Qle_bool_iff in Hle. congruence.
  - intros H. destruct (Qle_bool b a) eqn:E; [|done].
    apply Qle_bool_iff in E. exfalso. eapply Qlt_not_le; eauto.
Qed.

(** ** Loops that collect into a set

    A [forEach] over a map whose callback adds [pick k a] to one set of its
    state collects the union of the picks. *)

Section collect.
Context {K : Type} `{Countable K} {A S C : Type} `{Countable C}.
Variable proj : S → gset C.
Variable step : K → A → S → S.
Variable pick : K → A → gset C.
Hypothesis step_adds :
  ∀ k a acc c, c ∈ proj (step k a acc) ↔ c ∈ pick k a ∨ c ∈ proj acc.

Lemma map_fold_collect (init : S) (m : gmap K A) (c : C) :
  proj init = ∅ →
  c ∈ proj (map_fold step init m) ↔ ∃ k a, m !! k = Some a ∧ c ∈ pick k a.
Proof.
  intros Hinit. revert c.
  apply (map_fold_weak_ind (λ (r : S) (m : gmap K A),
           ∀ c, c ∈ proj r ↔ ∃ k a, m !! k = Some a ∧ c ∈ pick k a)).
  - intros c. rewrite Hinit. split; [set_solver|].
    intros (k & a & Hk & _). by rewrite lookup_empty in Hk.
  - intros i a m' r Hfresh IH c. rewrite step_adds, IH. split.
    + intros [Hc | (k & a' & Hk & Hc)].
      * exists i, a. by rewrite lookup_insert_eq.
      * exists k, a'. split; [|done].
        rewrite lookup_insert_ne; [done | congruence].
    + intros (k & a' & Hk & Hc). destruct (decide (i = k)) as [-> | Hne].
      * rewrite lookup_insert_eq in Hk. left. congruence.
      * rewrite lookup_insert_ne in Hk by done. right. eauto.
Qed.
End collect.


(** ** Sorting *)

Section stableSort.
Context {A : Type} (le : A → A → bool).

Lemma sortInsert_Permutation x l : sortInsert le x l ≡ₚ x :: l.
Proof.
  induction l as [|y l IH]; [done|]. cbn. destruct (le x y); [done|].
  rewrite IH. apply Permutation_swap.
Qed.

Lemma stableSort_Permutation l : stableSort le l ≡ₚ l.
Proof.
  induction l as [|x l IH]; [done|]. cbn.
  by rewrite sortInsert_Permutation, IH.
Qed.

Lemma stableSort_elem_of l x : x ∈ stableSort le l ↔ x ∈ l.
Proof. by rewrite stableSort_Permutation. Qed.

Hypothesis le_total : ∀ x y, le x y = true ∨ le y x = true.

Lemma sortInsert_Sorted x l :
  Sorted (λ a b, le a b = true) l →
  Sorted (λ a b, le a b = true) (sortInsert le x l).
Proof.
  intros Hs. induction l as [|y l IH]; cbn; [by repeat constructor|].
  apply Sorted_inv in Hs as [Hl Hhd].
  assert (le x y = false → le y x = true) as Hyx.
  { intros Hxy. destruct (le_total x y); congruence. }
  destruct (le x y) eqn:Hxy.
  - constructor; [by constructor | by constructor].
  - constructor; [by apply IH|].
    destruct l as [|z l]; cbn; [constructor; auto|].
    destruct (le x z); constructor; [auto|]. by inversion Hhd.
Qed.

Lemma stableSort_Sorted l : Sorted (λ a b, le a b = true) (stableSort le l).
Proof.
  induction l as [|x l IH]; cbn; [constructor | by apply sortInsert_Sorted].
Qed.

Hypothesis le_trans : ∀ x y z, le x y = true → le y z = true → le x z = true.

Lemma stableSort_StronglySorted l :
  StronglySorted (λ a b, le a b = true) (stableSort le l).
Proof.
  apply Sorted_StronglySorted; [|apply stableSort_Sorted].
  intros x y z. apply le_trans.
Qed.

End stableSort.
(** ** The visibility resolver *)

Module Visibility.
Import Graphology GraphView.

Lemma Qle_bool_strengthValid f e :
  Qle_bool (minStrength f) (weight e) = true ↔ strengthValid f e.
Proof. apply Qle_bool_iff. Qed.

Lemma validEdges_spec graph f k :
  k ∈ (strengthPass graph f).1 ↔
  ∃ e, g_edges graph !! k = Some e ∧ strengthValid f e.
Proof.
  unfold strengthPass.
  rewrite (map_fold_collect fst _
             (λ k e, if decide (strengthValid f e) then {[k]} else ∅)); [| |done].
  - split.
    + intros (k' & e & He & Hk). case_decide; [|set_solver].
      apply elem_of_singleton in Hk as ->. eauto.
    + intros (e & He & Hv). exists k, e. split; [done|].
      case_decide; set_solver.
  - intros k' e acc c. cbn zeta.
    destruct (Qle_bool _ _) eqn:E.
    + apply Qle_bool_strengthValid in E. case_decide; [|done]. set_solver.
    + case_decide as Hv; [|set_solver].
      apply Qle_bool_strengthValid in Hv. congruence.
Qed.

Lemma nodesWithValidEdges_spec graph f n :
  n ∈ (strengthPass graph f).2 ↔
  ∃ k e, g_edges graph !! k = Some e ∧ strengthValid f e ∧ attachedTo n e.
Proof.
  unfold strengthPass.
  rewrite (map_fold_collect snd _
             (λ k e, if decide (strengthValid f e)
                     then {[e_source e; e_target e]} else ∅)); [| |done].
  - unfold attachedTo. split.
    + intros (k & e & He & Hn). case_decide; [|set_solver].
      exists k, e. set_solver.
    + intros (k & e & He & Hv & Ht). exists k, e. split; [done|].
      case_decide; set_solver.
  - intros k e acc c. cbn zeta.
    destruct (Qle_bool _ _) eqn:E.
    + apply Qle_bool_strengthValid in E. case_decide; [|done]. set_solver.
    + case_decide as Hv; [|set_solver].
      apply Qle_bool_strengthValid in Hv. congruence.
Qed.

Lemma isNodeValid_spec graph f n :
  isNodeValid graph f n = true ↔ filterValid graph f n.
Proof.
  unfold isNodeValid, filterValid.
  destruct (g_nodes graph !! n) as [attrs|] eqn:Hn.
  2:{ split; [done | by intros (? & ? & _)]. }
  destruct (Qlt_bool (score (raw attrs)) (minScore f)) eqn:Hs.
  { apply Qlt_bool_true in Hs. split; [done|].
    intros (a & [= <-] & Hle & _). exfalso. eapply Qlt_not_le; eauto. }
  apply Qlt_bool_false in Hs.
  destruct (isAwardWinningOnly f).
  { rewrite bool_decide_eq_true. split; [eauto|]. by intros (a & [= <-] & _ & ?). }
  destruct (0 <? base.size (selectedGenres f))%nat eqn:Hsz.
  - apply Nat.ltb_lt in Hsz.
    assert (selectedGenres f ≠ ∅) as Hne.
    { intros Heq. rewrite Heq, size_empty in Hsz. lia. }
    rewrite existsb_exists. split.
    + intros (t & Ht & Hin). apply bool_decide_eq_true in Hin.
      exists attrs. repeat split; [done|]. right. exists t.
      by rewrite list_elem_of_In.
    + intros (a & [= <-] & _ & [? | (t & Ht & Hin)]); [done|].
      exists t. by rewrite <- list_elem_of_In, bool_decide_eq_true.
  - apply Nat.ltb_ge in Hsz. split; [|done]. intros _.
    exists attrs. repeat split; [done|]. left.
    apply leibniz_equiv, size_empty_iff. lia.
Qed.

(** [m] is at the other end of [e] from [n]. *)
Lemma neighborsVia_spec graph f s m :
  m ∈ neighborsVia graph f (strengthPass graph f).1 s ↔
  qualifyingNeighbor graph f s m.
Proof.
  unfold neighborsVia, qualifyingNeighbor.
  rewrite (map_fold_collect (λ acc, acc) _
    (λ k e, if decide (attachedTo s e) then
              let neighbor := if decide (e_source e = s)
                              then e_target e else e_source e in
              if bool_decide (k ∈ (strengthPass graph f).1)
                 && isNodeValid graph f neighbor
              then {[neighbor]} else ∅
            else ∅)); [| |done].
  - unfold otherEnd, attachedTo. split.
    + intros (k & e & He & Hm). exists k, e. split; [done|].
      case_decide as Ht; [|set_solver]. cbn zeta in Hm.
      destruct (bool_decide _ && _) eqn:Hb; [|set_solver].
      apply andb_true_iff in Hb as [Hk Hv].
      apply bool_decide_eq_true, validEdges_spec in Hk as (e' & He' & Hsv).
      apply isNodeValid_spec in Hv. simplify_eq.
      apply elem_of_singleton in Hm as ->.
      case_decide; repeat split; try done; destruct Ht; auto; try congruence.
    + intros (k & e & He & Hoe & Hsv & Hfv). exists k, e. split; [done|].
      assert (attachedTo s e) by (destruct Hoe as [[] | []]; [by left | by right]).
      rewrite decide_True by done. cbn zeta.
      assert ((if decide (e_source e = s) then e_target e else e_source e) = m) as ->.
      { case_decide; destruct Hoe as [[] | []]; congruence. }
      rewrite (proj2 (isNodeValid_spec _ _ _) Hfv).
      rewrite bool_decide_eq_true_2; [set_solver|].
      apply validEdges_spec. eauto.
  - intros k e acc c. case_decide; [|set_solver]. cbn zeta.
    destruct (bool_decide _ && _); set_solver.
Qed.

(** The running candidate set after the loop over the later selected
    ids: an id stays when it is a neighbour of each of them that is a
    node of the graph. *)
Lemma candidates_spec graph f (init : gset string) rest x :
  x ∈ foldl (λ candidates nextId,
               if hasNode graph nextId then
                 let nextNeighbors :=
                   neighborsVia graph f (strengthPass graph f).1 nextId in
                 filter (λ x, x ∈ nextNeighbors) candidates
               else candidates) init rest ↔
  x ∈ init ∧ ∀ s, s ∈ rest → hasNode graph s = true → qualifyingNeighbor graph f s x.
Proof.
  revert init. induction rest as [|r rest IH]; intros init; cbn [foldl].
  - split; [|by intros []]. intros Hx. split; [done|]. intros s Hs.
    by apply elem_of_nil in Hs.
  - rewrite IH. destruct (hasNode graph r) eqn:Hr.
    + cbn zeta. rewrite elem_of_filter, neighborsVia_spec. split.
      * intros [[Hq Hx] Hall]. split; [done|]. intros s Hs Hn.
        apply elem_of_cons in Hs as [-> | Hs]; auto.
      * intros [Hx Hall]. repeat split; [|done|].
        -- apply Hall; [left | done].
        -- intros s Hs. apply Hall. by right.
    + split; intros [Hx Hall]; (split; [done|]); intros s Hs Hn.
      * apply elem_of_cons in Hs as [-> | Hs]; [congruence | auto].
      * apply Hall; [by right | done].
Qed.



Lemma active_unselected_spec graph f x :
  x ∈ activeNodes graph f [] ↔
  (∃ k e, g_edges graph !! k = Some e ∧ strengthValid f e ∧ attachedTo x e) ∧
  filterValid graph f x.
Proof.
  unfold activeNodes.
  rewrite (map_fold_collect (λ acc, acc) _
    (λ node (_ : NodeAttrs),
       if bool_decide (node ∈ (strengthPass graph f).2) && isNodeValid graph f node
       then {[node]} else ∅)); [| |done].
  - split.
    + intros (n & a & Hn & Hx).
      destruct (bool_decide _ && _) eqn:Hb; [|set_solver].
      apply elem_of_singleton in Hx as ->.
      apply andb_true_iff in Hb as [Hv Hf].
      apply bool_decide_eq_true, nodesWithValidEdges_spec in Hv.
      by apply isNodeValid_spec in Hf.
    + intros [Hv Hf]. pose proof Hf as (a & Hn & _). exists x, a. split; [done|].
      rewrite (proj2 (isNodeValid_spec _ _ _) Hf).
      rewrite bool_decide_eq_true_2; [set_solver|].
      by apply nodesWithValidEdges_spec.
  - intros n a acc c. destruct (bool_decide _ && _); set_solver.
Qed.

Lemma active_selected_spec graph f firstId rest x :
  x ∈ activeNodes graph f (firstId :: rest) ↔
  hasNode graph firstId = true ∧
  (x ∈ firstId :: rest ∨
   ∀ s, s ∈ firstId :: rest → hasNode graph s = true →
        qualifyingNeighbor graph f s x).
Proof.
  unfold activeNodes. destruct (hasNode graph firstId) eqn:Hfirst.
  2:{ split; [set_solver | by intros []]. }
  cbn zeta. rewrite elem_of_union, elem_of_list_to_set, candidates_spec,
    neighborsVia_spec.
  split.
  - intros [Hsel | [Hq Hall]]; (split; [done|]); [by left | right].
    intros s Hs Hn. apply elem_of_cons in Hs as [-> | Hs]; auto.
  - intros [_ [Hsel | Hall]]; [by left | right]. split.
    + apply Hall; [left | done].
    + intros s Hs. apply Hall. by right.
Qed.

(** *** The scenario graphs, evaluated *)

Lemma graphW_edges k e :
  g_edges graphW !! k = Some e →
  e_source e = "X" ∧ (e_target e = "Y" ∨ e_target e = "Z").
Proof.
  intros He. apply elem_of_map_to_list in He.
  vm_compute in He. apply list_elem_of_In in He.
  destruct He as [[= <- <-] | [[= <- <-] | []]]; auto.
Qed.

(** *** The Active Set under a selection *)

(** C1, as stated, fails on two selections over the dataset with the
    unconnected title [W] (which is loaded into the node list, and so can
    be picked from the search box, but is dropped from the graph).
    Selecting [W] alone leaves the Active Set empty, where the claim has
    it contain [W]; selecting [X] and then [W] keeps the neighbours of
    [X] active, where the claim intersects them away. *)
Lemma activeIsIntersection_fails :
  ¬ activeIsIntersection graphW filterC ["W"] ∧
  ¬ activeIsIntersection graphW filterC ["X"; "W"].
Proof.
  split; intros Hclaim.
  - destruct (Hclaim "W") as [_ Hin].
    assert ("W" ∈ activeNodes graphW filterC ["W"]) as HW.
    { apply Hin. left. apply list_elem_of_here. }
    vm_compute in HW. discriminate HW.
  - destruct (Hclaim "Y") as [Hout _].
    assert ("Y" ∈ activeNodes graphW filterC ["X"; "W"]) as HY.
    { by_evaluation. }
    destruct (Hout HY) as [Hsel | Hall].
    + apply list_elem_of_In in Hsel. cbn in Hsel.
      destruct Hsel as [? | [? | []]]; discriminate.
    + destruct (Hall "W") as (k & e & He & Hoe & _).
      { apply list_elem_of_In. cbn. auto. }
      apply graphW_edges in He as [Hs Ht].
      destruct Hoe as [[? _] | [? _]]; destruct Ht; congruence.
Qed.

(** C1, amended: under a selection whose first id is a node of the graph,
    the Active Set is the selection united with the ids that are
    qualifying neighbours of every selected id that is a node of the graph
    (the running intersection passes over the others); when the first
    selected id is not a node of the graph the Active Set is empty.  In
    Scenario C the intersection is empty and the Active Set is [{X, Z}]. *)
Theorem active_set_of_selection :
  (∀ graph f firstId rest x,
     x ∈ activeNodes graph f (firstId :: rest) ↔
     hasNode graph firstId = true ∧
     (x ∈ firstId :: rest ∨
      ∀ s, s ∈ firstId :: rest → hasNode graph s = true →
           qualifyingNeighbor graph f s x)) ∧
  activeNodes scenarioGraph filterC ["X"; "Z"] = {["X"; "Z"]}.
Proof.
  split.
  - apply active_selected_spec.
  - by_evaluation.
Qed.

(** C2, as stated, fails on the same dataset: [W] is in the node list
    that the search box and the discovery grid offer, and selecting it
    leaves the Active Set empty. *)
Lemma selectionShown_fails :
  "W" ∈ id <$> nodeListOf (load atOrigin settled scenarioDataW) ∧
  ¬ selectionShown graphW filterC ["W"].
Proof.
  split.
  - by_evaluation.
  - intros Hclaim. specialize (Hclaim "W" (list_elem_of_here _ _)).
    vm_compute in Hclaim. discriminate Hclaim.
Qed.

(** C2, amended: under a selection whose first id is a node of the graph,
    every selected id is in the Active Set, whatever its score, genres or
    award status. *)
Theorem selection_is_active graph f firstId rest s :
  hasNode graph firstId = true →
  s ∈ firstId :: rest →
  s ∈ activeNodes graph f (firstId :: rest).
Proof.
  intros Hfirst Hs. apply active_selected_spec. auto.
Qed.

Lemma selection_is_active_witness :
  "Y" ∈ activeNodes scenarioGraph filterA ["X"; "Y"].
Proof.
  apply (selection_is_active scenarioGraph filterA "X" ["Y"] "Y").
  - vm_compute. reflexivity.
  - apply list_elem_of_In. simpl. auto.
Defined.

(** Scenario B: with [X] selected, [Y] is its only qualifying
    neighbour. *)
Example scenarioB_active : activeNodes scenarioGraph filterB ["X"] = {["X"; "Y"]}.
Proof. by_evaluation. Qed.

(** *** The Active Set without a selection *)

(** C3, as stated, fails: in Scenario A the Active Set is not empty. *)
Lemma scenarioA_not_empty : activeNodes scenarioGraph filterA [] ≠ ∅.
Proof.
  intros Hempty.
  assert ("X" ∈ activeNodes scenarioGraph filterA []) as HX.
  { by_evaluation. }
  rewrite Hempty in HX. by apply elem_of_empty in HX.
Qed.

(** C3, amended: in Scenario A the Active Set is [{X}].  [X] passes the
    score filter and its edge to [Y] passes the strength filter; that [Y]
    fails the score filter hides [Y], not [X]. *)
Theorem scenarioA_active : activeNodes scenarioGraph filterA [] = {["X"]}.
Proof. by_evaluation. Qed.

(** C4: with [awardWinningOnly] on and nothing selected, every node of
    the Active Set carries the award tag, has a score of at least
    [minScore], and is an end of an edge of strength at least
    [minStrength]. *)
Theorem award_only_active graph f n :
  isAwardWinningOnly f = true →
  n ∈ activeNodes graph f [] →
  ∃ attrs, g_nodes graph !! n = Some attrs ∧
    "Award Winning" ∈ genres (raw attrs) ∧
    (minScore f <= score (raw attrs))%Q ∧
    ∃ k e, g_edges graph !! k = Some e ∧ attachedTo n e ∧
           (minStrength f <= weight e)%Q.
Proof.
  intros Haward Hn.
  apply active_unselected_spec in Hn as [(k & e & He & Hv & Ht) Hf].
  destruct Hf as (attrs & Hattrs & Hscore & Hgenre). rewrite Haward in Hgenre.
  exists attrs. repeat split; [done..|]. by exists k, e.
Qed.

Lemma award_only_active_witness :
  ∃ attrs, g_nodes awardGraph !! "A" = Some attrs ∧
    "Award Winning" ∈ genres (raw attrs) ∧
    (minScore filterAward <= score (raw attrs))%Q ∧
    ∃ k e, g_edges awardGraph !! k = Some e ∧ attachedTo "A" e ∧
           (minStrength filterAward <= weight e)%Q.
Proof.
  apply (award_only_active awardGraph filterAward "A").
  - reflexivity.
  - by_evaluation.
Defined.

(** *** Growing the selection *)

Lemma qualifyingNeighbor_unselected graph f s x :
  qualifyingNeighbor graph f s x → x ∈ activeNodes graph f [].
Proof.
  intros (k & e & He & Hoe & Hv & Hf). apply active_unselected_spec.
  split; [|done]. exists k, e. repeat split; [done..|].
  destruct Hoe as [[_ ?] | [_ ?]]; [by right | by left].
Qed.

(** C5: appending an id [n] to the selection [S] adds nothing to the
    Active Set but [n]. *)
Theorem intersection_monotone graph f S n :
  n ∉ S →
  activeNodes graph f (S ++ [n]) ⊆ activeNodes graph f S ∪ {[n]}.
Proof.
  intros _ x Hx. apply elem_of_union. rewrite elem_of_singleton.
  destruct S as [|firstId rest].
  - apply active_selected_spec in Hx as [Hn [Hsel | Hall]].
    + apply list_elem_of_singleton in Hsel. by right.
    + left. eapply qualifyingNeighbor_unselected.
      apply (Hall n); [apply list_elem_of_here | done].
  - cbn [app] in Hx. apply active_selected_spec in Hx as [Hfirst [Hsel | Hall]].
    + apply elem_of_cons in Hsel as [-> | Hsel].
      * left. apply active_selected_spec. split; [done|]. left. left.
      * apply elem_of_app in Hsel as [Hsel | Hsel].
        -- left. apply active_selected_spec. split; [done|]. left. by right.
        -- apply list_elem_of_singleton in Hsel. by right.
    + left. apply active_selected_spec. split; [done|]. right.
      intros s Hs. apply Hall.
      apply elem_of_cons in Hs as [-> | Hs]; [left | right].
      apply elem_of_app. by left.
Qed.

Lemma intersection_monotone_witness :
  activeNodes scenarioGraph filterC (["X"] ++ ["Z"]) ⊆
  activeNodes scenarioGraph filterC ["X"] ∪ {["Z"]}.
Proof.
  apply (intersection_monotone scenarioGraph filterC ["X"] "Z").
  by_evaluation.
Defined.

End Visibility.

(** ** The graph loader *)

Module Loader.
Import Graphology GraphView.

(** *** The graph operations *)

Lemma hasNode_true g n : hasNode g n = true ↔ is_Some (g_nodes g !! n).
Proof. unfold hasNode. apply bool_decide_eq_true. Qed.

Lemma hasNode_false g n : hasNode g n = false ↔ g_nodes g !! n = None.
Proof.
  unfold hasNode. rewrite bool_decide_eq_false, eq_None_not_Some. done.
Qed.

Lemma hasNode_same_nodes g g' n :
  g_nodes g' = g_nodes g → hasNode g' n = hasNode g n.
Proof. unfold hasNode. by intros ->. Qed.

Lemma degreeOf_same_edges g g' n :
  g_edges g' = g_edges g → degreeOf g' n = degreeOf g n.
Proof. unfold degreeOf, inDegree, outDegree, edgeList. by intros ->. Qed.

Lemma linked_spec g s t :
  existsb (λ ke, links s t ke.2) (edgeList g) = true ↔
  ∃ k e, g_edges g !! k = Some e ∧ e_source e = s ∧ e_target e = t.
Proof.
  rewrite existsb_exists. unfold links, edgeList. split.
  - intros ([k e] & Hin & Hl). apply list_elem_of_In, elem_of_map_to_list in Hin.
    apply andb_true_iff in Hl as [Hs Ht].
    apply bool_decide_eq_true in Hs, Ht. eauto.
  - intros (k & e & He & Hs & Ht). exists (k, e). split.
    + by apply list_elem_of_In, elem_of_map_to_list.
    + cbn. by rewrite !bool_decide_eq_true_2.
Qed.

Lemma length_filter_zero {A} (P : A → Prop) `{∀ x, Decision (P x)} (l : list A) :
  length (filter P l) = 0%nat ↔ ∀ x, x ∈ l → ¬ P x.
Proof.
  rewrite length_zero_iff_nil. split.
  - intros Hnil x Hx HP.
    assert (x ∈ filter P l) as Hin by (apply list_elem_of_filter; auto).
    rewrite Hnil in Hin. by apply elem_of_nil in Hin.
  - intros Hno. apply elem_of_nil_inv. intros x Hx.
    apply list_elem_of_filter in Hx as [HP Hx]. by apply (Hno x).
Qed.

(** A node has degree 0 exactly when no edge is attached to it. *)
Lemma degreeOf_zero g n :
  degreeOf g n = 0%nat ↔
  ∀ k e, g_edges g !! k = Some e → ¬ attachedTo n e.
Proof.
  unfold degreeOf, inDegree, outDegree, edgeList, attachedTo.
  rewrite Nat.eq_add_0, !length_filter_zero. split.
  - intros [Hin Hout] k e He. apply elem_of_map_to_list in He.
    specialize (Hin _ He). specialize (Hout _ He). cbn in *. tauto.
  - intros Hno. split; intros [k e] He; apply elem_of_map_to_list in He;
      specialize (Hno _ _ He); cbn; tauto.
Qed.

Lemma degreeOf_pos g n :
  (1 <= degreeOf g n)%nat ↔
  ∃ k e, g_edges g !! k = Some e ∧ attachedTo n e.
Proof.
  split.
  - intros Hpos.
    destruct (decide (Exists (λ ke, attachedTo n ke.2) (edgeList g))) as [Hex | Hno].
    + apply Exists_exists in Hex as ([k e] & Hin & Hat).
      apply elem_of_map_to_list in Hin. eauto.
    + assert (degreeOf g n = 0%nat); [|lia].
      apply degreeOf_zero. intros k e He Hat. apply Hno, Exists_exists.
      exists (k, e). split; [by apply elem_of_map_to_list | done].
  - intros (k & e & He & Hat).
    destruct (decide (degreeOf g n = 0%nat)) as [Hz|]; [|lia].
    exfalso. eapply degreeOf_zero; eauto.
Qed.

(** *** The node pass *)


Section passes.
Variable place : RawNode → Q * Q.
Variable layout : Graph → string → Q * Q.

Lemma loadNode_ok st node :
  map_Forall nodeOk (g_nodes st.1) → listed st →
  ∃ st', loadNode place st node = Ok st' ∧
         g_edges st'.1 = g_edges st.1 ∧
         map_Forall nodeOk (g_nodes st'.1) ∧ listed st'.
Proof.
  intros Hok Hlisted. unfold loadNode.
  destruct (Qlt_bool (score node) LOAD_MIN_SCORE) eqn:Hscore; [by exists st|].
  destruct (hasNode st.1 (id node)) eqn:Hhas; [by exists st|].
  apply hasNode_false in Hhas. apply Qlt_bool_false in Hscore.
  cbn [negb]. unfold addNode. rewrite Hhas. cbn.
  eexists. split; [done|]. cbn. split; [done|]. split.
  - apply map_Forall_insert; [done|]. by split.
  - intros n [a Hn]. cbn in Hn |- *.
    destruct (decide (id node = n)) as [<- | Hne].
    + exists node. split; [|done]. apply elem_of_app. right. left.
    + rewrite lookup_insert_ne in Hn by done.
      destruct (Hlisted n) as (r & Hr & Hid); [by eexists|].
      exists r. split; [|done]. apply elem_of_app. by left.
Qed.

Lemma loadNodes_ok ns st :
  map_Forall nodeOk (g_nodes st.1) → listed st →
  ∃ st', forEachM (loadNode place) ns st = Ok st' ∧
         g_edges st'.1 = g_edges st.1 ∧
         map_Forall nodeOk (g_nodes st'.1) ∧ listed st'.
Proof.
  revert st. induction ns as [|node ns IH]; intros st Hok Hlisted.
  - by exists st.
  - destruct (loadNode_ok st node Hok Hlisted) as (st1 & Hstep & He1 & Hok1 & Hl1).
    destruct (IH st1 Hok1 Hl1) as (st' & Hrest & He & Hok' & Hl').
    exists st'. cbn. rewrite Hstep. cbn. rewrite Hrest.
    split; [done|]. split; [congruence | done].
Qed.

(** *** The edge pass *)


Lemma firstDeclared_snoc es r e :
  firstDeclared es e → firstDeclared (es ++ [r]) e.
Proof.
  intros (pre & r0 & post & -> & Hs & Ht & Hw & Hpre).
  exists pre, r0, (post ++ [r])%list. repeat split; [|done..].
  by rewrite <- app_assoc.
Qed.

(** A declaration that adds no edge keeps the invariant. *)
Lemma edgesInv_skip processed g edge :
  edgesInv processed g →
  (hasNode g (source edge) = true → hasNode g (target edge) = true →
   ∃ k e, g_edges g !! k = Some e ∧
          e_source e = source edge ∧ e_target e = target edge) →
  edgesInv (processed ++ [edge]) g.
Proof.
  intros [Huniq Hends Hfirst Hlinked] Hedge. split; [done | done | |].
  - intros k e He. by apply firstDeclared_snoc, (Hfirst k).
  - intros r Hr Hrs Hrt. apply elem_of_app in Hr as [Hr | Hr]; [auto|].
    apply list_elem_of_singleton in Hr as ->. auto.
Qed.

Lemma loadEdge_ok processed g edge :
  edgesInv processed g →
  ∃ g', loadEdge g edge = Ok g' ∧ g_nodes g' = g_nodes g ∧
        edgesInv (processed ++ [edge]) g'.
Proof.
  intros Hinv. unfold loadEdge.
  destruct (hasNode g (source edge)) eqn:Hs; cbn [andb].
  2:{ exists g. split; [done|]. split; [done|].
      apply edgesInv_skip; [done | congruence]. }
  destruct (hasNode g (target edge)) eqn:Ht.
  2:{ exists g. split; [done|]. split; [done|].
      apply edgesInv_skip; [done | congruence]. }
  unfold hasEdge, addEdge. rewrite Hs, Ht. cbn [andb negb].
  destruct (existsb _ _) eqn:Hlinks; cbn [negb].
  - apply linked_spec in Hlinks. exists g. split; [done|]. split; [done|].
    by apply edgesInv_skip.
  - destruct Hinv as [Huniq Hends Hfirst Hlinked].
    assert (∀ k e, g_edges g !! k = Some e →
                   ¬ (e_source e = source edge ∧ e_target e = target edge)) as Hnew.
    { intros k e He [Hes Het].
      assert (existsb (λ ke, links (source edge) (target edge) ke.2) (edgeList g)
              = true) as Habs by (apply linked_spec; eauto).
      congruence. }
    set (key := fresh (dom (g_edges g))).
    assert (g_edges g !! key = None) as Hkey.
    { apply not_elem_of_dom, is_fresh. }
    eexists. split; [done|]. split; [done|]. split.
    + intros k1 k2 e1 e2 H1 H2 Hss Htt. cbn in H1, H2. fold key in H1, H2.
      destruct (decide (key = k1)) as [<- | Hk1];
        destruct (decide (key = k2)) as [<- | Hk2]; [done | | |].
      * rewrite lookup_insert_eq in H1. rewrite lookup_insert_ne in H2 by done.
        simplify_eq. cbn in *. exfalso. by eapply (Hnew k2 e2).
      * rewrite lookup_insert_eq in H2. rewrite lookup_insert_ne in H1 by done.
        simplify_eq. cbn in *. exfalso. by eapply (Hnew k1 e1).
      * rewrite lookup_insert_ne in H1, H2 by done. by eapply Huniq.
    + intros k e He. cbn in He. unfold hasNode. cbn.
      destruct (decide (key = k)) as [<- | Hk].
      * rewrite lookup_insert_eq in He. by simplify_eq.
      * rewrite lookup_insert_ne in He by done. by apply (Hends k).
    + intros k e He. cbn in He. destruct (decide (key = k)) as [<- | Hk].
      * rewrite lookup_insert_eq in He. simplify_eq.
        exists processed, edge, []. repeat split.
        intros r' Hr' [Hrs Hrt].
        destruct (Hlinked r' Hr') as (k & e & He & Hes & Het); [congruence..|].
        apply (Hnew k e He). split; congruence.
      * rewrite lookup_insert_ne in He by done.
        by apply firstDeclared_snoc, (Hfirst k).
    + intros r Hr Hrs Hrt. unfold hasNode in Hrs, Hrt. cbn in Hrs, Hrt.
      apply elem_of_app in Hr as [Hr | Hr].
      * destruct (Hlinked r Hr Hrs Hrt) as (k & e & He & Hes & Het).
        exists k, e. split; [|done]. cbn. rewrite lookup_insert_ne; [done|].
        intros <-. congruence.
      * apply list_elem_of_singleton in Hr as ->.
        eexists key, _. cbn. rewrite lookup_insert_eq. done.
Qed.

Lemma loadEdges_ok es : ∀ processed g,
  edgesInv processed g →
  ∃ g', forEachM loadEdge es g = Ok g' ∧ g_nodes g' = g_nodes g ∧
        edgesInv (processed ++ es) g'.
Proof.
  induction es as [|edge es IH]; intros processed g Hinv.
  - exists g. by rewrite app_nil_r.
  - destruct (loadEdge_ok processed g edge Hinv) as (g1 & Hstep & Hn1 & Hinv1).
    destruct (IH _ g1 Hinv1) as (g' & Hrest & Hn & Hinv').
    exists g'. cbn. rewrite Hstep. cbn. rewrite Hrest.
    rewrite <- app_assoc in Hinv'. split; [done|]. split; [congruence | done].
Qed.

End passes.

(** *** The pass that drops isolated nodes *)

Lemma nodeKeys_spec g n : n ∈ nodeKeys g ↔ is_Some (g_nodes g !! n).
Proof.
  unfold nodeKeys. rewrite list_elem_of_fmap. split.
  - intros ([m a] & -> & Hin). apply elem_of_map_to_list in Hin. by eexists.
  - intros [a Ha]. exists (n, a). split; [done|]. by apply elem_of_map_to_list.
Qed.

Lemma nodeKeys_NoDup g : NoDup (nodeKeys g).
Proof. apply NoDup_fst_map_to_list. Qed.

Lemma dropIsolated_ok g n :
  hasNode g n = true →
  ∃ g', dropIsolated g n = Ok g' ∧ g_edges g' = g_edges g ∧
        ∀ m a, g_nodes g' !! m = Some a ↔
               g_nodes g !! m = Some a ∧ (m ≠ n ∨ degreeOf g n ≠ 0%nat).
Proof.
  intros Hn. unfold dropIsolated, degree. rewrite Hn. cbn.
  destruct (Nat.eqb_spec (degreeOf g n) 0) as [Hz | Hnz].
  - unfold dropNode. rewrite Hn. eexists. split; [done|]. cbn. split.
    + apply map_filter_id. intros k e He. cbn.
      by apply (proj1 (degreeOf_zero g n) Hz k).
    + intros m a. destruct (decide (m = n)) as [-> | Hne].
      * rewrite lookup_delete_eq. split; [done|]. intros [_ [? | ?]]; done.
      * rewrite lookup_delete_ne by done. split; [auto|]. by intros [? _].
  - exists g. split; [done|]. split; [done|]. intros m a. split; [auto|].
    by intros [? _].
Qed.

Lemma dropPass_ok l : ∀ g,
  ∃ g', forEachM (λ g' n, if hasNode g' n then dropIsolated g' n else Ok g') l g
        = Ok g' ∧
        g_edges g' = g_edges g ∧
        ∀ m a, g_nodes g' !! m = Some a ↔
               g_nodes g !! m = Some a ∧ (m ∉ l ∨ degreeOf g m ≠ 0%nat).
Proof.
  induction l as [|n l IH]; intros g.
  - exists g. split; [done|]. split; [done|]. intros m a. split; [|by intros []].
    intros Hm. split; [done|]. left. apply not_elem_of_nil.
  - assert (∃ g1, (if hasNode g n then dropIsolated g n else Ok g) = Ok g1 ∧
                  g_edges g1 = g_edges g ∧
                  ∀ m a, g_nodes g1 !! m = Some a ↔
                         g_nodes g !! m = Some a ∧ (m ≠ n ∨ degreeOf g n ≠ 0%nat))
      as (g1 & Hstep & He1 & Hn1).
    { destruct (hasNode g n) eqn:Hn; [by apply dropIsolated_ok|].
      apply hasNode_false in Hn. exists g. split; [done|]. split; [done|].
      intros m a. split; [|by intros []]. intros Hm. split; [done|]. left.
      intros ->. congruence. }
    destruct (IH g1) as (g' & Hrest & He & Hn').
    exists g'. cbn. rewrite Hstep. cbn. rewrite Hrest. split; [done|].
    split; [congruence|]. intros m a. rewrite Hn', Hn1.
    rewrite (degreeOf_same_edges g g1) by done.
    rewrite not_elem_of_cons. split.
    + intros [[Hm Hdrop] Hl]. split; [done|].
      destruct Hl as [Hl | Hl]; [|by right].
      destruct (decide (m = n)) as [-> | Hne]; [|by left].
      destruct Hdrop as [? | Hnz]; [done | by right].
    + intros [Hm [[Hne Hl] | Hnz]]; split_and!; auto.
      destruct (decide (m = n)) as [-> | ?]; auto.
Qed.

(** After the pass the graph keeps the nodes of positive degree. *)
Lemma dropIsolatedNodes_ok g :
  ∃ g', forEachNodeM dropIsolated g = Ok g' ∧
        g_edges g' = g_edges g ∧
        ∀ m a, g_nodes g' !! m = Some a ↔
               g_nodes g !! m = Some a ∧ (1 <= degreeOf g m)%nat.
Proof.
  destruct (dropPass_ok (nodeKeys g) g) as (g' & Hrun & He & Hn).
  exists g'. split; [done|]. split; [done|]. intros m a. rewrite Hn. split.
  - intros [Hm [Hnot | Hdeg]]; [|split; [done | lia]].
    exfalso. apply Hnot, nodeKeys_spec. by eexists.
  - intros [Hm Hdeg]. split; [done|]. right. lia.
Qed.

(** *** The degrees and their extremes *)

Lemma degrees_ok g l :
  (∀ n, n ∈ l → hasNode g n = true) →
  mapM (degree g) l = Ok (degreeOf g <$> l).
Proof.
  induction l as [|n l IH]; intros Hl; [done|].
  change (mapM (degree g) (n :: l))
    with (b ← degree g n ; bs ← mapM (degree g) l ; Ok (b :: bs)).
  rewrite IH by (intros m Hm; apply Hl; by right).
  unfold degree. by rewrite (Hl n) by left.
Qed.

Lemma foldr_min_le b ds d : d ∈ ds → (foldr Nat.min b ds <= d)%nat.
Proof.
  induction ds as [|d' ds IH]; intros Hd; [by apply elem_of_nil in Hd|].
  cbn. apply elem_of_cons in Hd as [-> | Hd]; [lia|].
  specialize (IH Hd). lia.
Qed.

Lemma foldr_min_in b ds : foldr Nat.min b ds ∈ b :: ds.
Proof.
  induction ds as [|d ds IH]; [left|]. cbn.
  destruct (Nat.min_spec d (foldr Nat.min b ds)) as [[_ ->] | [_ ->]].
  - right. left.
  - apply elem_of_cons in IH as [-> | IH]; [left | right; by right].
Qed.

Lemma Math_min_le ds d : d ∈ ds → (Math_min ds <= d)%nat.
Proof. apply foldr_min_le. Qed.

Lemma Math_min_in ds : ds ≠ [] → Math_min ds ∈ ds.
Proof.
  intros Hne. unfold Math_min. destruct ds as [|d ds]; [done|].
  pose proof (foldr_min_in d (d :: ds)) as Hin. cbn [hd].
  apply elem_of_cons in Hin as [-> | Hin]; [left | done].
Qed.

Lemma Math_max_ge ds d : d ∈ ds → (d <= Math_max ds)%nat.
Proof.
  unfold Math_max.
  induction ds as [|d' ds IH]; intros Hd; [by apply elem_of_nil in Hd|].
  cbn. apply elem_of_cons in Hd as [-> | Hd]; [lia|].
  specialize (IH Hd). lia.
Qed.

Lemma Math_max_in ds : ds ≠ [] → Math_max ds ∈ ds.
Proof.
  unfold Math_max. induction ds as [|d ds IH]; [done|]. intros _. cbn.
  destruct (Nat.max_spec d (foldr Nat.max 0%nat ds)) as [[Hlt ->] | [_ ->]]; [|left].
  right. apply IH. intros ->. cbn in Hlt. lia.
Qed.

(** *** The size pass *)


Lemma sizeNode_ok minDegree maxDegree g n a :
  g_nodes g !! n = Some a →
  sizeNode minDegree maxDegree g n =
  Ok {| g_nodes := <[n := sized minDegree maxDegree (degreeOf g n) a]> (g_nodes g);
        g_edges := g_edges g |}.
Proof.
  intros Hn. unfold sizeNode, degree.
  rewrite (proj2 (hasNode_true g n)) by (by eexists). cbn.
  unfold updateNodeAttributes at 2. rewrite Hn. cbn.
  unfold updateNodeAttributes. cbn. rewrite lookup_insert_eq.
  by rewrite insert_insert_eq.
Qed.

Lemma sizePass_ok minDegree maxDegree l :
  NoDup l → ∀ g,
  ∃ g', forEachM (λ g' n, if hasNode g' n
                          then sizeNode minDegree maxDegree g' n else Ok g') l g
        = Ok g' ∧
        g_edges g' = g_edges g ∧
        ∀ m, g_nodes g' !! m =
             if decide (m ∈ l)
             then sized minDegree maxDegree (degreeOf g m) <$> g_nodes g !! m
             else g_nodes g !! m.
Proof.
  induction 1 as [|n l Hfresh Hnodup IH]; intros g.
  - exists g. split; [done|]. split; [done|]. intros m.
    rewrite decide_False; [done | apply not_elem_of_nil].
  - assert (∃ g1, (if hasNode g n then sizeNode minDegree maxDegree g n else Ok g)
                  = Ok g1 ∧
                  g_edges g1 = g_edges g ∧
                  ∀ m, g_nodes g1 !! m =
                       if decide (m = n)
                       then sized minDegree maxDegree (degreeOf g m) <$> g_nodes g !! m
                       else g_nodes g !! m)
      as (g1 & Hstep & He1 & Hn1).
    { destruct (hasNode g n) eqn:Hn.
      - apply hasNode_true in Hn as [a Ha]. rewrite (sizeNode_ok _ _ _ _ _ Ha).
        eexists. split; [done|]. split; [done|]. intros m. cbn.
        case_decide as Hm; [subst m | by rewrite lookup_insert_ne].
        by rewrite lookup_insert_eq, Ha.
      - apply hasNode_false in Hn. exists g. split; [done|]. split; [done|].
        intros m. case_decide as Hm; [subst m; by rewrite Hn | done]. }
    destruct (IH g1) as (g' & Hrest & He & Hn').
    exists g'. cbn. rewrite Hstep. cbn. rewrite Hrest. split; [done|].
    split; [congruence|]. intros m. rewrite Hn', Hn1.
    rewrite (degreeOf_same_edges g g1) by done.
    destruct (decide (m = n)) as [-> | Hne].
    + rewrite decide_False by done. rewrite decide_True by left. done.
    + destruct (decide (m ∈ l)) as [Hin | Hout].
      * rewrite decide_True by (by right). done.
      * rewrite decide_False; [done|]. by apply not_elem_of_cons.
Qed.

Lemma sizeNodes_ok minDegree maxDegree g :
  ∃ g', forEachNodeM (sizeNode minDegree maxDegree) g = Ok g' ∧
        g_edges g' = g_edges g ∧
        ∀ m, g_nodes g' !! m =
             sized minDegree maxDegree (degreeOf g m) <$> g_nodes g !! m.
Proof.
  destruct (sizePass_ok minDegree maxDegree (nodeKeys g) (nodeKeys_NoDup g) g)
    as (g' & Hrun & He & Hn).
  exists g'. split; [done|]. split; [done|]. intros m. rewrite Hn.
  case_decide as Hm; [done|].
  rewrite nodeKeys_spec, <- eq_None_not_Some in Hm. by rewrite Hm.
Qed.

(** *** The settle pass *)

Lemma forceAtlas2_assign_lookup layout g m a :
  g_nodes (forceAtlas2_assign layout g) !! m = Some a →
  ∃ a', g_nodes g !! m = Some a' ∧ raw a = raw a' ∧
        a_size a = a_size a' ∧ a_importance a = a_importance a'.
Proof.
  unfold forceAtlas2_assign. cbn. rewrite map_lookup_imap.
  destruct (g_nodes g !! m) as [a'|]; [|done]. cbn. intros [= <-].
  exists a'. split; [done|]. by destruct (a_fixed a') as [[]|].
Qed.

Lemma forceAtlas2_assign_nodes layout g m :
  is_Some (g_nodes (forceAtlas2_assign layout g) !! m) ↔ is_Some (g_nodes g !! m).
Proof.
  unfold forceAtlas2_assign. cbn. rewrite map_lookup_imap.
  destruct (g_nodes g !! m) as [a'|]; cbn; [|done].
  split; intros _; by eexists.
Qed.

(** *** The ratio *)

Lemma degreeRatio_normalized d minDegree maxDegree :
  (minDegree <= d)%nat → (d <= maxDegree)%nat →
  (degreeRatio d minDegree maxDegree == normalizedDegree d minDegree maxDegree)%Q.
Proof.
  intros Hlo Hhi. unfold degreeRatio, normalizedDegree. cbn zeta.
  destruct (Z.eqb_spec (Z.of_nat maxDegree - Z.of_nat minDegree) 0) as [Hz | Hnz].
  - rewrite decide_True by lia.
    replace (Z.of_nat d - Z.of_nat minDegree)%Z with 0%Z by lia. reflexivity.
  - rewrite decide_False by lia. reflexivity.
Qed.

Lemma degreeRatio_bounds d minDegree maxDegree :
  (minDegree <= d)%nat → (d <= maxDegree)%nat →
  (0 <= degreeRatio d minDegree maxDegree)%Q ∧
  (degreeRatio d minDegree maxDegree <= 1)%Q.
Proof.
  intros Hlo Hhi. unfold degreeRatio. cbn zeta.
  set (num := (Z.of_nat d - Z.of_nat minDegree)%Z).
  set (span := (Z.of_nat maxDegree - Z.of_nat minDegree)%Z).
  assert (0 <= num <= span)%Z as [Hnum Hspan] by (unfold num, span; lia).
  assert (0 <= inject_Z num)%Q as Hnum'.
  { change 0%Q with (inject_Z 0). by rewrite <- Zle_Qle. }
  destruct (Z.eqb_spec span 0) as [Hz | Hnz].
  - assert (num = 0%Z) as -> by lia. split; by vm_compute.
  - assert (0 < inject_Z span)%Q as Hpos.
    { change 0%Q with (inject_Z 0). rewrite <- Zlt_Qlt. lia. }
    split.
    + apply Qle_shift_div_l; [done|]. by rewrite Qmult_0_l.
    + apply Qle_shift_div_r; [done|]. rewrite Qmult_1_l. by rewrite <- Zle_Qle.
Qed.

Lemma size_bounds r :
  (0 <= r)%Q → (r <= 1)%Q → (3 <= 3 + r * 12)%Q ∧ (3 + r * 12 <= 15)%Q.
Proof.
  intros Hlo Hhi. split.
  - rewrite <- (Qplus_0_r 3) at 1. apply Qplus_le_r.
    apply Qmult_le_0_compat; [done | by vm_compute].
  - change 15%Q with (3 + 1 * 12)%Q. apply Qplus_le_r.
    apply Qmult_le_compat_r; [done | by vm_compute].
Qed.

(** *** The whole load *)

Lemma edgesInv_empty g : g_edges g = ∅ → edgesInv [] g.
Proof.
  intros He. split.
  - intros k1 k2 e1 e2 H1. by rewrite He, lookup_empty in H1.
  - intros k e H1. by rewrite He, lookup_empty in H1.
  - intros k e H1. by rewrite He, lookup_empty in H1.
  - intros r Hr. by apply elem_of_nil in Hr.
Qed.

(** Dropping the isolated nodes keeps the invariant of the edge pass. *)
Lemma edgesInv_dropped es g g' :
  edgesInv es g →
  g_edges g' = g_edges g →
  (∀ m a, g_nodes g' !! m = Some a ↔
          g_nodes g !! m = Some a ∧ (1 <= degreeOf g m)%nat) →
  edgesInv es g'.
Proof.
  intros [Huniq Hends Hfirst Hlinked] He Hn.
  assert (∀ m, hasNode g' m = true → hasNode g m = true) as Hsub.
  { intros m [a Ha]%hasNode_true. apply Hn in Ha as [Ha _].
    apply hasNode_true. by eexists. }
  split.
  - intros k1 k2 e1 e2. rewrite He. apply Huniq.
  - intros k e Hk. rewrite He in Hk. destruct (Hends k e Hk) as [Hs Ht].
    apply hasNode_true in Hs as [as' Hs], Ht as [at' Ht].
    split; apply hasNode_true.
    + exists as'. apply Hn. split; [done|]. apply degreeOf_pos.
      exists k, e. split; [done | by left].
    + exists at'. apply Hn. split; [done|]. apply degreeOf_pos.
      exists k, e. split; [done | by right].
  - intros k e. rewrite He. apply Hfirst.
  - intros r Hr Hs Ht. rewrite He. apply Hlinked; auto.
Qed.

Lemma load_phases place layout data :
  ∃ g3 g loadedNodes,
    load place layout data = Ok (g, loadedNodes) ∧
    map_Forall nodeOk (g_nodes g3) ∧
    (∀ n, is_Some (g_nodes g3 !! n) → ∃ r, r ∈ loadedNodes ∧ id r = n) ∧
    edgesInv (edges data) g3 ∧
    (∀ n, is_Some (g_nodes g3 !! n) → (1 <= degreeOf g3 n)%nat) ∧
    g_edges g = g_edges g3 ∧
    (∀ n, is_Some (g_nodes g !! n) ↔ is_Some (g_nodes g3 !! n)) ∧
    (∀ n a, g_nodes g !! n = Some a →
       ∃ a3, g_nodes g3 !! n = Some a3 ∧ raw a = raw a3 ∧
         let degrees := degreeOf g3 <$> nodeKeys g3 in
         let ratio := degreeRatio (degreeOf g3 n)
                        (Math_min degrees) (Math_max degrees) in
         a_importance a = Some ratio ∧ a_size a = (3 + ratio * 12)%Q).
Proof.
  destruct (loadNodes_ok place (nodes data) (empty, []))
    as ([g1 loadedNodes] & Hnodes & He1 & Hok1 & Hlisted1).
  { apply map_Forall_empty. }
  { intros n [a Ha]. cbn in Ha. by rewrite lookup_empty in Ha. }
  cbn in He1, Hok1.
  destruct (loadEdges_ok (edges data) [] g1 (edgesInv_empty g1 He1))
    as (g2 & Hedges & Hn2 & Hinv2). cbn [app] in Hinv2.
  destruct (dropIsolatedNodes_ok g2) as (g3 & Hdrop & He3 & Hn3).
  pose proof (edgesInv_dropped _ _ _ Hinv2 He3 Hn3) as Hinv3.
  set (degrees := degreeOf g3 <$> nodeKeys g3).
  destruct (sizeNodes_ok (Math_min degrees) (Math_max degrees) g3)
    as (g4 & Hsize & He4 & Hn4).
  exists g3.
  exists (if (0 <? order g4)%nat then forceAtlas2_assign layout g4 else g4).
  exists loadedNodes.
  split.
  { unfold load. rewrite Hnodes. cbn [mbind result_bind fst snd].
    rewrite Hedges. cbn [mbind result_bind]. rewrite Hdrop.
    cbn [mbind result_bind]. rewrite degrees_ok.
    2:{ intros n Hn. by apply hasNode_true, nodeKeys_spec. }
    cbn [mbind result_bind]. fold degrees. rewrite Hsize. done. }
  split.
  { intros n a Ha. apply Hn3 in Ha as [Ha _]. rewrite Hn2 in Ha.
    by apply (Hok1 n a). }
  split.
  { intros n [a Ha]. apply Hn3 in Ha as [Ha _]. rewrite Hn2 in Ha.
    apply (Hlisted1 n). by eexists. }
  split; [done|]. split.
  { intros n [a Ha]. apply Hn3 in Ha as [_ Hdeg].
    by rewrite (degreeOf_same_edges g2 g3). }
  assert (∀ n, is_Some (g_nodes g4 !! n) ↔ is_Some (g_nodes g3 !! n)) as Hsame.
  { intros n. rewrite Hn4. apply fmap_is_Some. }
  destruct (0 <? order g4)%nat.
  - split; [by rewrite <- He4|]. split.
    + intros n. by rewrite forceAtlas2_assign_nodes.
    + intros n a Ha.
      apply forceAtlas2_assign_lookup in Ha as (a4 & Ha4 & -> & -> & ->).
      rewrite Hn4 in Ha4. destruct (g_nodes g3 !! n) as [a3|]; [|done].
      cbn in Ha4. injection Ha4 as <-. by exists a3.
  - split; [done|]. split; [done|]. intros n a Ha.
    rewrite Hn4 in Ha. destruct (g_nodes g3 !! n) as [a3|]; [|done].
    cbn in Ha. injection Ha as <-. by exists a3.
Qed.

(** C6: the load returns a graph in which every node has a score of at
    least [LOAD_MIN_SCORE] and a degree of at least 1, an importance equal
    to its degree normalized between the least and the greatest degree of
    the graph (0 when these are equal), and a size of 3 plus 12 times the
    importance, which lies between 3 and 15. *)
Theorem load_nodes place layout data :
  ∃ g loadedNodes,
    load place layout data = Ok (g, loadedNodes) ∧
    ∀ n a, g_nodes g !! n = Some a →
      (LOAD_MIN_SCORE <= score (raw a))%Q ∧
      (1 <= degreeOf g n)%nat ∧
      ∃ minDegree maxDegree ratio,
        isMinDegree g minDegree ∧ isMaxDegree g maxDegree ∧
        a_importance a = Some ratio ∧
        (ratio == normalizedDegree (degreeOf g n) minDegree maxDegree)%Q ∧
        (a_size a == 3 + ratio * 12)%Q ∧
        (3 <= a_size a)%Q ∧ (a_size a <= 15)%Q.
Proof.
  destruct (load_phases place layout data)
    as (g3 & g & loadedNodes & Hload & Hok & _ & _ & Hdeg & He & Hsame & Hattrs).
  exists g, loadedNodes. split; [done|]. intros n a Ha.
  destruct (Hattrs n a Ha) as (a3 & Ha3 & Hraw & Himp & Hsize).
  assert (∀ m, degreeOf g m = degreeOf g3 m) as Hdegree.
  { intros m. by apply degreeOf_same_edges. }
  assert (∀ m, hasNode g m = true ↔ m ∈ nodeKeys g3) as Hkeys.
  { intros m. by rewrite hasNode_true, nodeKeys_spec. }
  set (degrees := degreeOf g3 <$> nodeKeys g3) in *.
  assert (∀ m, hasNode g m = true → degreeOf g3 m ∈ degrees) as Hin.
  { intros m Hm. apply list_elem_of_fmap. exists m. split; [done|]. by apply Hkeys. }
  assert (hasNode g n = true) as Hn by (apply hasNode_true; by eexists).
  assert (degrees ≠ []) as Hne.
  { intros Hnil. specialize (Hin n Hn). rewrite Hnil in Hin.
    by apply elem_of_nil in Hin. }
  assert (isMinDegree g (Math_min degrees)) as Hmin.
  { split.
    - pose proof (Math_min_in degrees Hne) as Hm.
      apply list_elem_of_fmap in Hm as (m & Hm & Hkey).
      exists m. rewrite Hdegree. split; [by apply Hkeys | done].
    - intros m Hm. rewrite Hdegree. by apply Math_min_le, Hin. }
  assert (isMaxDegree g (Math_max degrees)) as Hmax.
  { split.
    - pose proof (Math_max_in degrees Hne) as Hm.
      apply list_elem_of_fmap in Hm as (m & Hm & Hkey).
      exists m. rewrite Hdegree. split; [by apply Hkeys | done].
    - intros m Hm. rewrite Hdegree. by apply Math_max_ge, Hin. }
  assert (Math_min degrees <= degreeOf g3 n)%nat as Hlo
    by (by apply Math_min_le, Hin).
  assert (degreeOf g3 n <= Math_max degrees)%nat as Hhi
    by (by apply Math_max_ge, Hin).
  split.
  { rewrite Hraw. by apply (Hok n a3). }
  split.
  { rewrite Hdegree. apply Hdeg. by eexists. }
  eexists _, _, _. split; [exact Hmin|]. split; [exact Hmax|].
  split; [exact Himp|]. rewrite Hdegree, Hsize.
  destruct (degreeRatio_bounds _ _ _ Hlo Hhi) as [H0 H1].
  split; [by apply degreeRatio_normalized|]. split; [reflexivity|].
  by apply size_bounds.
Qed.

(** C7, as stated, fails: a pair declared once in each orientation is
    loaded as two edges. *)
Lemma oneEdgePerPair_fails :
  ¬ oneEdgePerPair (graphOf (load atOrigin settled bothWaysData)).
Proof.
  intros Hclaim.
  assert (0 = 1)%nat; [|done].
  apply (Hclaim 0%nat 1%nat
           {| e_source := "X"; e_target := "Y"; weight := 4 # 10 |}
           {| e_source := "Y"; e_target := "X"; weight := 9 # 10 |}).
  - by vm_compute.
  - by vm_compute.
  - right. done.
Qed.

(** C7, amended: the load returns a graph with at most one edge per
    ordered (source, target) pair of node ids; each edge carries the first
    declaration of its ordered pair in the dataset, later declarations of
    the pair in the same orientation being ignored; and every declaration
    between two nodes of the graph has an edge for its ordered pair (so a
    declaration in the opposite orientation gets an edge of its own). *)
Theorem load_edges place layout data :
  ∃ g loadedNodes,
    load place layout data = Ok (g, loadedNodes) ∧
    oneEdgePerOrderedPair g ∧
    (∀ k e, g_edges g !! k = Some e → firstDeclared (edges data) e) ∧
    (∀ r, r ∈ edges data →
          hasNode g (source r) = true → hasNode g (target r) = true →
          ∃ k e, g_edges g !! k = Some e ∧
                 e_source e = source r ∧ e_target e = target r).
Proof.
  destruct (load_phases place layout data)
    as (g3 & g & loadedNodes & Hload & _ & _ & Hinv & _ & He & Hsame & _).
  destruct Hinv as [Huniq _ Hfirst Hlinked].
  exists g, loadedNodes. split; [done|]. split; [|split].
  - intros k1 k2 e1 e2. rewrite He. apply Huniq.
  - intros k e. rewrite He. apply Hfirst.
  - intros r Hr Hs Ht. rewrite He. apply Hlinked; [done | |];
      apply hasNode_true, Hsame, hasNode_true; done.
Qed.

(** Every node of the loaded graph is keyed by its own id and appears in
    the node list handed to the search box. *)
Lemma load_nodes_listed place layout data g loadedNodes n a :
  load place layout data = Ok (g, loadedNodes) →
  g_nodes g !! n = Some a →
  id (raw a) = n ∧ ∃ r, r ∈ loadedNodes ∧ id r = n.
Proof.
  destruct (load_phases place layout data)
    as (g3 & g' & nl & Hload & Hok & Hlisted & _ & _ & _ & Hsame & Hattrs).
  rewrite Hload. intros [= <- <-] Ha.
  destruct (Hattrs n a Ha) as (a3 & Ha3 & Hraw & _). split.
  - rewrite Hraw. by apply (Hok n a3).
  - apply Hlisted. by eexists.
Qed.

(** *** The scenario dataset, loaded *)

(** [X] has degree 2 and [Y] and [Z] degree 1, so [X] is as large as a
    node gets and the other two as small. *)
Example scenario_sizes :
  (λ a, (a_importance a, a_size a)) <$> g_nodes scenarioGraph !! "X"
    = Some (Some (1 # 1), 15 # 1)%Q ∧
  (λ a, (a_importance a, a_size a)) <$> g_nodes scenarioGraph !! "Y"
    = Some (Some (0 # 1), 3 # 1)%Q ∧
  degreeOf scenarioGraph "X" = 2%nat ∧ degreeOf scenarioGraph "Z" = 1%nat.
Proof. repeat split; vm_compute; reflexivity. Qed.

(** The unconnected [W] is listed but is not a node of the graph. *)
Example scenario_isolated :
  hasNode graphW "W" = false ∧
  id <$> nodeListOf (load atOrigin settled scenarioDataW) = ["X"; "Y"; "Z"; "W"].
Proof. split; vm_compute; reflexivity. Qed.

(** A second declaration in the same orientation is ignored. *)
Example twice_declared :
  (map_to_list (g_edges (graphOf (load atOrigin settled twiceData)))).*2
    = [ {| e_source := "X"; e_target := "Y"; weight := 4 # 10 |} ].
Proof. vm_compute. reflexivity. Qed.

End Loader.

(** ** The pointer gestures *)

Module Gestures.
Import Graphology GraphView.


Lemma graphWrite_ok n upd a w :
  g_nodes (graph w) !! n = Some a →
  graphWrite (λ g, updateNodeAttributes g n upd) w =
  (Ok (), set_graph {| g_nodes := <[n := upd a]> (g_nodes (graph w));
                       g_edges := g_edges (graph w) |} w).
Proof. intros Hn. unfold graphWrite, updateNodeAttributes. by rewrite Hn. Qed.

Lemma graphWrite_missing n upd w :
  g_nodes (graph w) !! n = None →
  graphWrite (λ g, updateNodeAttributes g n upd) w = (Throw NotFoundGraphError, w).
Proof. intros Hn. unfold graphWrite, updateNodeAttributes. by rewrite Hn. Qed.

Lemma bind_ok {A B} (m : Handler A) (k : A → Handler B) w a w' :
  m w = (Ok a, w') → (m ≫= k) w = k a w'.
Proof. intros Hm. unfold mbind, handler_bind. by rewrite Hm. Qed.

Lemma bind_throw {A B} (m : Handler A) (k : A → Handler B) w e w' :
  m w = (Throw e, w') → (m ≫= k) w = (Throw e, w').
Proof. intros Hm. unfold mbind, handler_bind. by rewrite Hm. Qed.

(** A change of state that renders [GraphView]. *)
Lemma setTooltip_hidden w : tooltip w = None → setTooltip None w = (Ok (), w).
Proof.
  intros Htip. unfold setTooltip, mbind, handler_bind, get. by rewrite Htip.
Qed.

Lemma setTooltip_showing w t :
  tooltip w = Some t →
  setTooltip None w = (Ok (), set_listening false (set_tooltip None w)).
Proof.
  intros Htip. unfold setTooltip, mbind, handler_bind, get. by rewrite Htip.
Qed.

Lemma onToggleNode_ok n w :
  onToggleNode n w = (Ok (), set_listening false (handleToggleNode n w)).
Proof. reflexivity. Qed.

Section handlers.
Variable viewportToGraph : Z * Z → Q * Q.
Variable getNodeDisplayData : Graph → string → option (Q * Q).

Local Abbreviation handleMouseMove := (handleMouseMove viewportToGraph).
Local Abbreviation handleMouseUp := (handleMouseUp getNodeDisplayData).
Local Abbreviation run := (run viewportToGraph getNodeDisplayData).
Local Abbreviation dispatch := (dispatch viewportToGraph getNodeDisplayData).

Lemma run_app evs1 evs2 w :
  run (evs1 ++ evs2) w =
  match run evs1 w with
  | (Ok _, w') => run evs2 w'
  | (Throw e, w') => (Throw e, w')
  end.
Proof.
  revert w. induction evs1 as [|ev evs1 IH]; intros w; [done|].
  cbn [app GraphView.run]. unfold mbind, handler_bind.
  destruct (dispatch ev w) as [[[]|e] w1]; [apply IH | done].
Qed.



(** *** The handlers, case by case *)

Lemma press_ok n x0 y0 w :
  dispatch (press n x0 y0) w =
  (Ok (), set_listening true
            (set_dragInfoRef
               (Some {| nodeId := n; startX := x0; startY := y0;
                        isDragging := false |}) w)).
Proof. reflexivity. Qed.

Lemma beyondThreshold_within n x0 y0 b p :
  beyondThreshold {| nodeId := n; startX := x0; startY := y0; isDragging := b |}
    p.1 p.2 = false ↔ within x0 y0 p.
Proof.
  unfold beyondThreshold, within. cbn. rewrite Z.ltb_ge. done.
Qed.

(** While armed, a move within the threshold changes nothing. *)
Lemma move_armed w d x y :
  dragInfoRef w = Some d → isDragging d = false →
  beyondThreshold d x y = false →
  handleMouseMove x y w = (Ok (), w).
Proof.
  intros Hd Harmed Hnear. unfold GraphView.handleMouseMove.
  erewrite bind_ok; [|unfold get; by rewrite Hd]; cbv beta iota.
  rewrite Harmed, Hnear. cbn [negb andb].
  erewrite bind_ok; [|reflexivity]; cbv beta iota.
  erewrite bind_ok; [|unfold get; by rewrite Hd]; cbv beta iota.
  cbn. by rewrite Harmed.
Qed.



Lemma find_listed (nl : list RawNode) n :
  (∃ r, r ∈ nl ∧ id r = n) →
  ∃ target, find (λ r, bool_decide (id r = n)) nl = Some target ∧ id target = n.
Proof.
  intros (r & Hr & Hid). destruct (find _ nl) as [target|] eqn:Hfind.
  - apply find_some in Hfind as [_ Ht]. apply bool_decide_eq_true in Ht. eauto.
  - apply list_elem_of_In in Hr.
    pose proof (find_none _ _ Hfind r Hr) as Hno. cbn in Hno.
    apply bool_decide_eq_false in Hno. done.
Qed.


(** A release while dragging unpins the node and does nothing else. *)
Lemma up_drag w d a :
  dragInfoRef w = Some d → isDragging d = true →
  g_nodes (graph w) !! nodeId d = Some a →
  handleMouseUp w =
  (Ok (), set_listening false (set_cursor cursorDefault (set_dragInfoRef None
            (set_graph {| g_nodes := <[nodeId d := set_fixed None a]>
                                       (g_nodes (graph w));
                          g_edges := g_edges (graph w) |} w)))).
Proof.
  intros Hd Hdrag Hn. unfold GraphView.handleMouseUp.
  erewrite bind_ok; [|unfold get; by rewrite Hd]; cbv beta iota.
  rewrite Hdrag.
  erewrite bind_ok; cbv beta iota.
  2:{ erewrite bind_ok; [|reflexivity]. cbv beta iota.
      rewrite (proj2 (Loader.hasNode_true _ _)) by (by eexists).
      by apply graphWrite_ok. }
  reflexivity.
Qed.

(** *** Runs of moves *)

Lemma dispatch_move w x y :
  listening w = true → dispatch (MouseMove x y) w = handleMouseMove x y w.
Proof.
  intros Hon. cbn [GraphView.dispatch].
  erewrite bind_ok; [|reflexivity]. cbv beta iota. by rewrite Hon.
Qed.

Lemma dispatch_up w :
  listening w = true → dispatch MouseUp w = handleMouseUp w.
Proof.
  intros Hon. cbn [GraphView.dispatch].
  erewrite bind_ok; [|reflexivity]. cbv beta iota. by rewrite Hon.
Qed.

Lemma run_cons_ok ev evs w w1 :
  dispatch ev w = (Ok (), w1) → run (ev :: evs) w = run evs w1.
Proof. intros Hev. cbn [GraphView.run]. by erewrite bind_ok. Qed.


Lemma run_moves_armed ms w d :
  dragInfoRef w = Some d → isDragging d = false → listening w = true →
  Forall (λ p, beyondThreshold d p.1 p.2 = false) ms →
  run (moves ms) w = (Ok (), w).
Proof.
  intros Hd Harmed Hon. induction 1 as [|p ms Hp Hms IH]; [done|].
  cbn [moves map]. erewrite run_cons_ok; [exact IH|].
  rewrite dispatch_move by done. by eapply move_armed.
Qed.





End handlers.


(** C9 fails on the code.  After a press on [Y], take [Y] out of the graph.
    While the gesture is still armed, the first move beyond the threshold
    and the release both throw [NotFoundGraphError]; once the gesture is
    a drag, the next position write throws as well.  Only the release of
    a drag checks [hasNode] first and passes silently. *)
Theorem stranded_gesture_throws :
  hasNode (graph strandedArmed) "Y" = false ∧
  (handleMouseMove pixelsToGraph 100 100 strandedArmed).1
    = Throw NotFoundGraphError ∧
  (handleMouseUp positionOf strandedArmed).1 = Throw NotFoundGraphError ∧
  hasNode (graph strandedDragging) "Y" = false ∧
  (handleMouseMove pixelsToGraph 120 120 strandedDragging).1
    = Throw NotFoundGraphError ∧
  (handleMouseUp positionOf strandedDragging).1 = Ok ().
Proof. repeat split; vm_compute; reflexivity. Qed.

End Gestures.

(** ** The discovery grid *)

Module Discovery.
Import DiscoveryModal.

Lemma candidates_pool nodeList n : n ∈ candidates nodeList ↔ inPool nodeList n.
Proof.
  unfold candidates, inPool, isCandidate.
  rewrite list_elem_of_In, filter_In, <- list_elem_of_In. cbn zeta.
  rewrite orb_true_iff, Qle_bool_iff, bool_decide_eq_true. tauto.
Qed.

(** One refresh keeps the grid inside the pool and within the grid size. *)
Lemma refreshNodes_shown shuffle nodeList shown :
  (∀ l, shuffle l ≡ₚ l) →
  shown ⊆+ candidates nodeList ∧ (length shown <= GRID_SIZE)%nat →
  refreshNodes shuffle nodeList shown ⊆+ candidates nodeList ∧
  (length (refreshNodes shuffle nodeList shown) <= GRID_SIZE)%nat.
Proof.
  intros Hperm Hshown. unfold refreshNodes.
  destruct (length (candidates nodeList) =? 0)%nat; [done|]. split.
  - rewrite <- (Hperm (candidates nodeList)) at 2.
    apply sublist_submseteq, sublist_take.
  - rewrite length_take. lia.
Qed.

Lemma refreshNodes_empty_pool shuffle nodeList shown :
  candidates nodeList = [] → refreshNodes shuffle nodeList shown = shown.
Proof. intros Hnone. unfold refreshNodes. by rewrite Hnone. Qed.

(** C10: the pool is the part of the node list with a score of at least
    8 or the award tag; the grid after any series of refreshes, each
    leaving the candidates in some order, is drawn from the pool without
    repeating an entry of it and has at most 25 entries; and a refresh on
    an empty pool leaves the grid as it is. *)
Theorem discovery_grid shuffles nodeList :
  Forall (λ shuffle, ∀ l : list SearchableNode, shuffle l ≡ₚ l) shuffles →
  (∀ n, n ∈ candidates nodeList ↔ inPool nodeList n) ∧
  refreshes shuffles nodeList [] ⊆+ candidates nodeList ∧
  (∀ n, n ∈ refreshes shuffles nodeList [] → inPool nodeList n) ∧
  (length (refreshes shuffles nodeList []) <= 25)%nat ∧
  (candidates nodeList = [] →
   ∀ shuffle shown, refreshNodes shuffle nodeList shown = shown).
Proof.
  intros Hperms.
  assert (refreshes shuffles nodeList [] ⊆+ candidates nodeList ∧
          (length (refreshes shuffles nodeList []) <= GRID_SIZE)%nat) as [Hsub Hlen].
  { unfold refreshes.
    assert (([] : list SearchableNode) ⊆+ candidates nodeList ∧
            (length ([] : list SearchableNode) <= GRID_SIZE)%nat) as Hstart.
    { split; [apply submseteq_nil_l | cbn; lia]. }
    revert Hstart. generalize ([] : list SearchableNode).
    induction Hperms as [|shuffle shuffles Hperm _ IH]; intros shown Hshown; [done|].
    cbn [foldl]. apply IH. by apply refreshNodes_shown. }
  split; [apply candidates_pool|]. split; [done|]. split.
  - intros n Hn. apply candidates_pool. by eapply elem_of_submseteq.
  - split; [done|]. intros Hnone shuffle shown. by apply refreshNodes_empty_pool.
Qed.

Lemma discovery_grid_witness :
  (∀ n, n ∈ candidates sampleList ↔ inPool sampleList n) ∧
  refreshes [reverse; λ l, l] sampleList [] ⊆+ candidates sampleList ∧
  (∀ n, n ∈ refreshes [reverse; λ l, l] sampleList [] → inPool sampleList n) ∧
  (length (refreshes [reverse; λ l, l] sampleList []) <= 25)%nat ∧
  (candidates sampleList = [] →
   ∀ shuffle shown, refreshNodes shuffle sampleList shown = shown).
Proof.
  apply (discovery_grid [reverse; λ l, l] sampleList).
  apply Forall_cons. split; [|apply Forall_cons; split; [|by apply Forall_nil]].
  - intros l. apply reverse_Permutation.
  - intros l. reflexivity.
Defined.

End Discovery.

(** ** More about the loaded graph *)

Module LoadedGraph.
Import Graphology GraphView Loader.

Lemma firstPassing_snoc ns x r : firstPassing ns r → firstPassing (ns ++ [x]) r.
Proof.
  intros [Hscore (pre & post & -> & Hpre)]. split; [done|].
  exists pre, (post ++ [x])%list. split; [|done]. by rewrite <- app_assoc.
Qed.

Lemma loadNode_inv place processed st node :
  nodesInv processed st →
  ∃ st', loadNode place st node = Ok st' ∧ nodesInv (processed ++ [node]) st'.
Proof.
  intros [Hedges Hdom Hraw Hnodup Hsub Hfirst Hall]. unfold loadNode.
  destruct (Qlt_bool (score node) LOAD_MIN_SCORE) eqn:Hscore.
  { apply Qlt_bool_true in Hscore. exists st. split; [done|].
    split; [done..| | |].
    - by apply sublist_inserts_r.
    - intros r Hr. by apply firstPassing_snoc, Hfirst.
    - intros r Hr Hpass. apply elem_of_app in Hr as [Hr | Hr]; [auto|].
      apply list_elem_of_singleton in Hr as ->.
      exfalso. by eapply Qlt_not_le. }
  apply Qlt_bool_false in Hscore.
  destruct (hasNode st.1 (id node)) eqn:Hhas; cbn [negb].
  { apply hasNode_true in Hhas. exists st. split; [done|].
    split; [done..| | |].
    - by apply sublist_inserts_r.
    - intros r Hr. by apply firstPassing_snoc, Hfirst.
    - intros r Hr Hpass. apply elem_of_app in Hr as [Hr | Hr]; [auto|].
      apply list_elem_of_singleton in Hr as ->. by apply Hdom. }
  apply hasNode_false in Hhas.
  assert (∀ r, r ∈ st.2 → id r ≠ id node) as Hnew.
  { intros r Hr Hid.
    assert (is_Some (g_nodes st.1 !! id node)) as [a Ha] by (apply Hdom; eauto).
    congruence. }
  unfold addNode. rewrite Hhas. cbn. eexists. split; [done|]. split; cbn.
  - done.
  - intros n. rewrite lookup_insert_is_Some, Hdom. split.
    + intros [<- | [_ (r & Hr & Hid)]].
      * exists node. split; [|done]. apply elem_of_app. right. left.
      * exists r. split; [|done]. apply elem_of_app. by left.
    + intros (r & Hr & Hid). apply elem_of_app in Hr as [Hr | Hr].
      * destruct (decide (id node = n)) as [? | Hne]; [by left|].
        right. split; [done|]. eauto.
      * apply list_elem_of_singleton in Hr as ->. by left.
  - intros n a Ha. destruct (decide (id node = n)) as [<- | Hne].
    + rewrite lookup_insert_eq in Ha. injection Ha as <-. cbn.
      split; [apply elem_of_app; right; left | done].
    + rewrite lookup_insert_ne in Ha by done.
      destruct (Hraw n a Ha) as (Hin & Hid & Hfresh).
      split; [apply elem_of_app; by left | done].
  - rewrite fmap_app. apply NoDup_app. split; [done|]. split.
    + intros i Hi Hi'. apply list_elem_of_singleton in Hi' as ->.
      apply list_elem_of_fmap in Hi as (r & Hid & Hr). by apply (Hnew r).
    + apply NoDup_singleton.
  - by apply sublist_app.
  - intros r Hr. apply elem_of_app in Hr as [Hr | Hr].
    + by apply firstPassing_snoc, Hfirst.
    + apply list_elem_of_singleton in Hr as ->. split; [done|].
      exists processed, []. split; [done|]. intros x Hx Hid.
      apply Qnot_le_lt. intros Hpass.
      destruct (Hall x Hx Hpass) as (r' & Hr' & Hid').
      apply (Hnew r' Hr'). congruence.
  - intros r Hr Hpass. apply elem_of_app in Hr as [Hr | Hr].
    + destruct (Hall r Hr Hpass) as (r' & Hr' & Hid').
      exists r'. split; [|done]. apply elem_of_app. by left.
    + apply list_elem_of_singleton in Hr as ->.
      exists node. split; [|done]. apply elem_of_app. right. left.
Qed.

Lemma loadNodes_inv place ns : ∀ processed st,
  nodesInv processed st →
  ∃ st', forEachM (loadNode place) ns st = Ok st' ∧ nodesInv (processed ++ ns) st'.
Proof.
  induction ns as [|node ns IH]; intros processed st Hinv.
  - exists st. by rewrite app_nil_r.
  - destruct (loadNode_inv place processed st node Hinv) as (st1 & Hstep & Hinv1).
    destruct (IH _ st1 Hinv1) as (st' & Hrest & Hinv').
    exists st'. cbn. rewrite Hstep. cbn. rewrite Hrest.
    rewrite <- app_assoc in Hinv'. done.
Qed.

Lemma nodesInv_start : nodesInv [] (empty, []).
Proof.
  split; cbn.
  - done.
  - intros n. rewrite lookup_empty. split; [by intros [? ?] |].
    intros (r & Hr & _). by apply elem_of_nil in Hr.
  - intros n a Ha. by rewrite lookup_empty in Ha.
  - apply NoDup_nil_2.
  - done.
  - intros r Hr. by apply elem_of_nil in Hr.
  - intros r Hr. by apply elem_of_nil in Hr.
Qed.

Lemma forceAtlas2_assign_pin layout g m a :
  g_nodes (forceAtlas2_assign layout g) !! m = Some a →
  ∃ a', g_nodes g !! m = Some a' ∧ raw a = raw a' ∧ a_fixed a = a_fixed a'.
Proof.
  unfold forceAtlas2_assign. cbn. rewrite map_lookup_imap.
  destruct (g_nodes g !! m) as [a'|]; [|done]. cbn. intros [= <-].
  exists a'. split; [done|].
  destruct (a_fixed a') as [[]|] eqn:Hfixed; cbn; rewrite ?Hfixed; done.
Qed.

(** The passes of a load, one after the other: the graph [g1] after the
    node pass, [g2] after the edge pass, and the graph returned. *)
Lemma load_trace place layout data :
  ∃ g1 g2 g loadedNodes,
    load place layout data = Ok (g, loadedNodes) ∧
    nodesInv (nodes data) (g1, loadedNodes) ∧
    g_nodes g2 = g_nodes g1 ∧
    edgesInv (edges data) g2 ∧
    g_edges g = g_edges g2 ∧
    (∀ n, is_Some (g_nodes g !! n) ↔
          is_Some (g_nodes g2 !! n) ∧ (1 <= degreeOf g2 n)%nat) ∧
    (∀ n a, g_nodes g !! n = Some a →
       ∃ a1, g_nodes g1 !! n = Some a1 ∧ raw a = raw a1 ∧ a_fixed a = a_fixed a1).
Proof.
  destruct (loadNodes_inv place (nodes data) [] (empty, []) nodesInv_start)
    as ([g1 loadedNodes] & Hnodes & Hinv1).
  cbn [app] in Hinv1.
  destruct (loadEdges_ok (edges data) [] g1 (edgesInv_empty g1 (ni_edges _ _ Hinv1)))
    as (g2 & Hedges & Hn2 & Hinv2). cbn [app] in Hinv2.
  destruct (dropIsolatedNodes_ok g2) as (g3 & Hdrop & He3 & Hn3).
  set (degrees := degreeOf g3 <$> nodeKeys g3).
  destruct (sizeNodes_ok (Math_min degrees) (Math_max degrees) g3)
    as (g4 & Hsize & He4 & Hn4).
  exists g1, g2.
  exists (if (0 <? order g4)%nat then forceAtlas2_assign layout g4 else g4).
  exists loadedNodes.
  split.
  { unfold load. rewrite Hnodes. cbn [mbind result_bind fst snd].
    rewrite Hedges. cbn [mbind result_bind]. rewrite Hdrop.
    cbn [mbind result_bind]. rewrite degrees_ok.
    2:{ intros n Hn. by apply hasNode_true, nodeKeys_spec. }
    cbn [mbind result_bind]. fold degrees. rewrite Hsize. done. }
  split; [done|]. split; [done|]. split; [done|].
  assert (∀ n, is_Some (g_nodes g4 !! n) ↔
               is_Some (g_nodes g2 !! n) ∧ (1 <= degreeOf g2 n)%nat) as Hdom4.
  { intros n. rewrite Hn4, fmap_is_Some. split.
    - intros [a Ha]. apply Hn3 in Ha as [Ha Hdeg]. split; [by eexists | done].
    - intros [[a Ha] Hdeg]. exists a. by apply Hn3. }
  assert (∀ n a, g_nodes g4 !! n = Some a →
            ∃ a1, g_nodes g1 !! n = Some a1 ∧ raw a = raw a1 ∧
                  a_fixed a = a_fixed a1) as Hattrs4.
  { intros n a Ha. rewrite Hn4 in Ha.
    destruct (g_nodes g3 !! n) as [a3|] eqn:Ha3; [|done].
    cbn in Ha. injection Ha as <-.
    apply Hn3 in Ha3 as [Ha2 _]. rewrite Hn2 in Ha2. by exists a3. }
  destruct (0 <? order g4)%nat.
  - split; [cbn; congruence|]. split.
    + intros n. by rewrite forceAtlas2_assign_nodes.
    + intros n a Ha. apply forceAtlas2_assign_pin in Ha as (a4 & Ha4 & -> & ->).
      by apply Hattrs4.
  - split; [congruence|]. done.
Qed.

(** Every edge of the loaded graph joins two nodes of the graph: a
    declaration that mentions an id the graph does not have is never
    made into an edge. *)
Theorem load_no_dangling_edge place layout data :
  ∃ g loadedNodes,
    load place layout data = Ok (g, loadedNodes) ∧
    ∀ k e, g_edges g !! k = Some e →
           hasNode g (e_source e) = true ∧ hasNode g (e_target e) = true.
Proof.
  destruct (load_trace place layout data)
    as (g1 & g2 & g & nl & Hload & _ & _ & Hinv & He & Hdom & _).
  exists g, nl. split; [done|]. intros k e Hk. rewrite He in Hk.
  destruct (inv_ends _ _ Hinv k e Hk) as [Hs Ht].
  split; apply hasNode_true, Hdom; (split; [by apply hasNode_true|]);
    apply degreeOf_pos; exists k, e; (split; [done|]); [by left | by right].
Qed.

(** The node list handed to the search box and to the discovery grid
    keeps the dataset order, has no two entries with the same id, holds
    for each id the first dataset node that reaches [LOAD_MIN_SCORE], and
    misses no id that reaches it. *)
Theorem load_node_list place layout data :
  ∃ g loadedNodes,
    load place layout data = Ok (g, loadedNodes) ∧
    sublist loadedNodes (nodes data) ∧
    NoDup (id <$> loadedNodes) ∧
    (∀ r, r ∈ loadedNodes → firstPassing (nodes data) r) ∧
    (∀ r, r ∈ nodes data → (LOAD_MIN_SCORE <= score r)%Q →
          listedIn loadedNodes (id r)).
Proof.
  destruct (load_trace place layout data)
    as (g1 & g2 & g & nl & Hload & Hinv & _).
  exists g, nl. split; [done|].
  destruct Hinv as [_ _ _ Hnodup Hsub Hfirst Hall]. done.
Qed.

(** The nodes of the loaded graph are the listed ids that some
    declaration joins to a listed id (possibly to itself); each carries
    the dataset record listed under its id and is not pinned. *)
Theorem load_survivors place layout data :
  ∃ g loadedNodes,
    load place layout data = Ok (g, loadedNodes) ∧
    (∀ n, hasNode g n = true ↔
          listedIn loadedNodes n ∧
          ∃ r, r ∈ edges data ∧ (source r = n ∨ target r = n) ∧
               listedIn loadedNodes (source r) ∧
               listedIn loadedNodes (target r)) ∧
    (∀ n a, g_nodes g !! n = Some a →
            raw a ∈ loadedNodes ∧ id (raw a) = n ∧ a_fixed a = None).
Proof.
  destruct (load_trace place layout data)
    as (g1 & g2 & g & nl & Hload & Hinv1 & Hn2 & Hinv2 & He & Hdom & Hattrs).
  exists g, nl. split; [done|].
  assert (∀ n, hasNode g2 n = true ↔ listedIn nl n) as Hlisted.
  { intros n. rewrite hasNode_true, Hn2. apply (ni_dom _ _ Hinv1). }
  split.
  - intros n. rewrite hasNode_true, Hdom, <- hasNode_true, Hlisted, degreeOf_pos.
    split.
    + intros [Hn (k & e & Hk & Hat)]. split; [done|].
      destruct (inv_first _ _ Hinv2 k e Hk) as (pre & r & post & Hes & Hs & Ht & _).
      destruct (inv_ends _ _ Hinv2 k e Hk) as [Hsn Htn].
      exists r. split; [rewrite Hes; apply elem_of_app; right; left|].
      rewrite Hs, Ht. split; [done|]. split; by apply Hlisted.
    + intros [Hn (r & Hr & Hat & Hs & Ht)]. split; [done|].
      destruct (inv_linked _ _ Hinv2 r Hr) as (k & e & Hk & Hes & Het);
        [by apply Hlisted..|].
      exists k, e. split; [done|]. unfold attachedTo. rewrite Hes, Het. done.
  - intros n a Ha. destruct (Hattrs n a Ha) as (a1 & Ha1 & -> & ->).
    destruct (ni_raw _ _ Hinv1 n a1 Ha1) as (Hin & Hid & _ & Hfixed & _). done.
Qed.

End LoadedGraph.

(** ** More about the visibility effect *)

Module Styling.
Import Graphology GraphView Visibility.

(** *** Comparing filter states *)

(** A filter state that accepts fewer edges and fewer nodes shows fewer
    nodes, whatever the selection. *)
Lemma activeNodes_mono graph f f' selectedArray :
  (∀ e, strengthValid f' e → strengthValid f e) →
  (∀ x, filterValid graph f' x → filterValid graph f x) →
  activeNodes graph f' selectedArray ⊆ activeNodes graph f selectedArray.
Proof.
  intros Hedge Hnode x Hx. destruct selectedArray as [|firstId rest].
  - apply active_unselected_spec in Hx as [(k & e & He & Hv & Hat) Hf].
    apply active_unselected_spec. split; [|auto]. exists k, e. auto.
  - apply active_selected_spec in Hx as [Hfirst Hx].
    apply active_selected_spec. split; [done|].
    destruct Hx as [Hsel | Hall]; [by left | right].
    intros s Hs Hn. destruct (Hall s Hs Hn) as (k & e & He & Hoe & Hv & Hf).
    exists k, e. auto.
Qed.

Lemma filterValid_score graph f strength score x :
  (minScore f <= score)%Q →
  filterValid graph (withThresholds strength score f) x → filterValid graph f x.
Proof.
  intros Hle (attrs & Hx & Hscore & Hgenres). exists attrs. split; [done|].
  split; [|done]. cbn in Hscore. by eapply Qle_trans.
Qed.

(** Raising the strength and score thresholds never brings a node into
    the Active Set. *)
Theorem tighter_thresholds_show_less graph f strength score selectedArray :
  (minStrength f <= strength)%Q →
  (minScore f <= score)%Q →
  activeNodes graph (withThresholds strength score f) selectedArray ⊆
  activeNodes graph f selectedArray.
Proof.
  intros Hstrength Hscore. apply activeNodes_mono.
  - intros e He. unfold strengthValid in *. cbn in He. by eapply Qle_trans.
  - intros x. by apply filterValid_score.
Qed.

Lemma tighter_thresholds_show_less_witness :
  activeNodes scenarioGraph (withThresholds (2 # 10) 6 filterC) ["X"] ⊆
  activeNodes scenarioGraph filterC ["X"].
Proof.
  apply (tighter_thresholds_show_less scenarioGraph filterC (2 # 10) 6 ["X"]).
  - vm_compute. discriminate.
  - vm_compute. discriminate.
Defined.

(** While the award switch is on, the genre selection has no effect on
    the Active Set. *)
Theorem award_switch_overrides_genres graph f s selectedArray :
  isAwardWinningOnly f = true →
  activeNodes graph (withGenres s f) selectedArray = activeNodes graph f selectedArray.
Proof.
  intros Haward.
  assert (∀ x, filterValid graph (withGenres s f) x ↔ filterValid graph f x) as Hsame.
  { intros x. unfold filterValid. cbn. by rewrite Haward. }
  apply set_eq. intros x. split; apply activeNodes_mono; try done;
    intros y; apply Hsame.
Qed.

Lemma award_switch_overrides_genres_witness :
  activeNodes awardGraph (withGenres ∅ filterAward) [] =
  activeNodes awardGraph filterAward [].
Proof.
  apply (award_switch_overrides_genres awardGraph filterAward ∅ []).
  reflexivity.
Defined.

Lemma toggleGenreFilter_spec genre prev x :
  x ∈ toggleGenreFilter genre prev ↔
  if decide (x = genre) then genre ∉ prev else x ∈ prev.
Proof.
  unfold toggleGenreFilter. case_bool_decide; case_decide; set_solver.
Qed.

(** With the award switch off: switching a genre on and off again gives
    back the genre set; every genre selection shows a part of what the
    cleared genre filter shows; and adding a genre to a selection that
    already has one never hides a node. *)
Theorem genre_filter_widens graph f genre prev selectedArray :
  prev ≠ ∅ → genre ∉ prev →
  toggleGenreFilter genre (toggleGenreFilter genre prev) = prev ∧
  activeNodes graph (withGenres prev f) selectedArray ⊆
    activeNodes graph (withGenres clearGenreFilter f) selectedArray ∧
  activeNodes graph (withGenres prev f) selectedArray ⊆
    activeNodes graph (withGenres (toggleGenreFilter genre prev) f) selectedArray.
Proof.
  intros Hne Hnew. split; [|split].
  - apply set_eq. intros x. rewrite toggleGenreFilter_spec.
    case_decide as Hx; [subst x|].
    + rewrite toggleGenreFilter_spec, decide_True by done. tauto.
    + by rewrite toggleGenreFilter_spec, decide_False by done.
  - apply activeNodes_mono; [done|]. intros x (attrs & Hx & Hscore & Hgenres).
    exists attrs. split; [done|]. split; [done|]. cbn in *.
    destruct (isAwardWinningOnly f); [done | by left].
  - apply activeNodes_mono; [done|]. intros x (attrs & Hx & Hscore & Hgenres).
    exists attrs. split; [done|]. split; [done|]. cbn in *.
    destruct (isAwardWinningOnly f); [done|]. right.
    destruct Hgenres as [? | (t & Ht & Hin)]; [done|].
    exists t. split; [done|]. apply toggleGenreFilter_spec.
    case_decide; [congruence | done].
Qed.

Lemma genre_filter_widens_witness :
  toggleGenreFilter "Drama" (toggleGenreFilter "Drama" {["Action"]}) = {["Action"]} ∧
  activeNodes awardGraph (withGenres {["Action"]} filterC) [] ⊆
    activeNodes awardGraph (withGenres clearGenreFilter filterC) [] ∧
  activeNodes awardGraph (withGenres {["Action"]} filterC) [] ⊆
    activeNodes awardGraph
      (withGenres (toggleGenreFilter "Drama" {["Action"]}) filterC) [].
Proof.
  apply (genre_filter_widens awardGraph filterC "Drama" {["Action"]} []);
    by_evaluation.
Defined.

(** A selected id is shown whenever the first selected id is a node of
    the graph. *)
Lemma selection_is_active_helper graph f firstId rest s :
  hasNode graph firstId = true → s ∈ firstId :: rest →
  s ∈ activeNodes graph f (firstId :: rest).
Proof. intros Hfirst Hs. apply active_selected_spec. auto. Qed.

(** *** The order of the selection *)

(** Two selections with the same members, each starting with a node of
    the graph, give the same Active Set. *)
Theorem selection_order_irrelevant graph f first1 rest1 first2 rest2 :
  hasNode graph first1 = true → hasNode graph first2 = true →
  (∀ s, s ∈ first1 :: rest1 ↔ s ∈ first2 :: rest2) →
  activeNodes graph f (first1 :: rest1) = activeNodes graph f (first2 :: rest2).
Proof.
  intros H1 H2 Hsame. apply set_eq. intros x.
  rewrite !active_selected_spec, H1, H2, Hsame.
  split; intros [_ [Hsel | Hall]]; (split; [done|]); auto;
    right; intros s Hs; apply Hall; by apply Hsame.
Qed.

Lemma selection_order_irrelevant_witness :
  activeNodes scenarioGraph filterC ["X"; "Z"] =
  activeNodes scenarioGraph filterC ["Z"; "X"].
Proof.
  apply (selection_order_irrelevant scenarioGraph filterC "X" ["Z"] "Z" ["X"]).
  - vm_compute. reflexivity.
  - vm_compute. reflexivity.
  - intros s. rewrite !elem_of_cons. tauto.
Defined.

(** *** The reducers *)

Lemma nodeReducer_shown activeNodes selectedNodes node data :
  nd_hidden (nodeReducer activeNodes selectedNodes node data) = Some false ↔
  node ∈ activeNodes.
Proof.
  unfold nodeReducer. case_bool_decide; cbn; [|split; [done | tauto]].
  case_bool_decide; cbn; tauto.
Qed.

(** The edge reducer never throws.  It shows an edge exactly when the
    edge passes the strength filter and both its ends are in the Active
    Set, and then the node reducer shows both ends; any other edge keeps
    its display data and is hidden. *)
Theorem visible_edge_has_visible_ends graph f selectedArray edge data :
  ∃ shown, edgeReducerFor graph f selectedArray edge data = Ok shown ∧
    (ed_hidden shown = Some false ↔
     ∃ e, g_edges graph !! edge = Some e ∧ strengthValid f e ∧
          e_source e ∈ activeNodes graph f selectedArray ∧
          e_target e ∈ activeNodes graph f selectedArray) ∧
    (ed_hidden shown = Some false →
     ∀ e nodeData, g_edges graph !! edge = Some e →
       nd_hidden (nodeReducerFor graph f selectedArray (e_source e) nodeData)
         = Some false ∧
       nd_hidden (nodeReducerFor graph f selectedArray (e_target e) nodeData)
         = Some false) ∧
    (ed_hidden shown ≠ Some false → shown = hideEdge data).
Proof.
  unfold edgeReducerFor, edgeReducer, nodeReducerFor.
  set (active := activeNodes graph f selectedArray).
  destruct (bool_decide (edge ∈ (strengthPass graph f).1)) eqn:Hvalid; cbn [negb].
  2:{ apply bool_decide_eq_false in Hvalid. eexists. split; [done|]. cbn.
      split; [|done]. split; [done|]. intros (e & He & Hv & _).
      exfalso. apply Hvalid, validEdges_spec. eauto. }
  apply bool_decide_eq_true, validEdges_spec in Hvalid as (e & He & Hv).
  unfold extremities. rewrite He. cbn.
  destruct (bool_decide (e_source e ∈ active)) eqn:Hs; cbn [andb].
  2:{ apply bool_decide_eq_false in Hs. eexists. split; [done|]. cbn.
      split; [|done]. split; [done|]. intros (e' & He' & _ & Hs' & _).
      congruence. }
  destruct (bool_decide (e_target e ∈ active)) eqn:Ht.
  2:{ apply bool_decide_eq_false in Ht. eexists. split; [done|]. cbn.
      split; [|done]. split; [done|]. intros (e' & He' & _ & _ & Ht').
      congruence. }
  apply bool_decide_eq_true in Hs, Ht.
  assert (∀ shown, ed_hidden shown = Some false →
    (ed_hidden shown = Some false ↔
     ∃ e0, Some e = Some e0 ∧ strengthValid f e0 ∧
           e_source e0 ∈ active ∧ e_target e0 ∈ active) ∧
    (ed_hidden shown = Some false →
     ∀ e0 nodeData, Some e = Some e0 →
       nd_hidden (nodeReducer active selectedArray (e_source e0) nodeData)
         = Some false ∧
       nd_hidden (nodeReducer active selectedArray (e_target e0) nodeData)
         = Some false) ∧
    (ed_hidden shown ≠ Some false → shown = hideEdge data)) as Hshown.
  { intros shown Hhidden. split; [|split]; [| |done].
    - split; [|done]. intros _. by exists e.
    - intros _ e0 nodeData [= <-]. by rewrite !nodeReducer_shown. }
  destruct (_ || _); eexists; (split; [done|]); by apply Hshown.
Qed.

(** Under a selection that starts with a node of the graph, every shown
    node that is not selected is joined to every selected node of the
    graph by an edge that is shown in the highlighted style. *)
Theorem related_node_is_linked graph f firstId rest x s :
  hasNode graph firstId = true →
  x ∈ activeNodes graph f (firstId :: rest) →
  x ∉ firstId :: rest →
  s ∈ firstId :: rest → hasNode graph s = true →
  ∃ edge e, g_edges graph !! edge = Some e ∧ otherEnd s e x ∧
    ∀ data, edgeReducerFor graph f (firstId :: rest) edge data =
            Ok {| ed_hidden := Some false; ed_color := Some "#64748b";
                  ed_zIndex := Some 10%Z; ed_size := Some 2%Q |}.
Proof.
  intros Hfirst Hx Hnot Hs Hn.
  pose proof Hx as Hx'. apply active_selected_spec in Hx' as [_ [? | Hall]]; [done|].
  destruct (Hall s Hs Hn) as (k & e & He & Hoe & Hv & Hf).
  exists k, e. split; [done|]. split; [done|]. intros data.
  assert (s ∈ activeNodes graph f (firstId :: rest)) as Hsa
    by (by apply selection_is_active_helper).
  unfold edgeReducerFor, edgeReducer, extremities.
  rewrite bool_decide_eq_true_2 by (apply validEdges_spec; eauto).
  rewrite He. cbn [mbind result_bind fst snd].
  destruct Hoe as [[Hes Het] | [Het Hes]]; rewrite Hes, Het.
  - rewrite (bool_decide_eq_true_2 (s ∈ activeNodes _ _ _)) by done.
    rewrite (bool_decide_eq_true_2 (x ∈ activeNodes _ _ _)) by done.
    by rewrite (bool_decide_eq_true_2 (s ∈ firstId :: rest)) by done.
  - rewrite (bool_decide_eq_true_2 (s ∈ activeNodes _ _ _)) by done.
    rewrite (bool_decide_eq_true_2 (x ∈ activeNodes _ _ _)) by done.
    rewrite (bool_decide_eq_true_2 (s ∈ firstId :: rest)) by done.
    by rewrite orb_true_r.
Qed.

Lemma related_node_is_linked_witness :
  ∃ edge e, g_edges scenarioGraph !! edge = Some e ∧ otherEnd "X" e "Y" ∧
    ∀ data, edgeReducerFor scenarioGraph filterB ["X"] edge data =
            Ok {| ed_hidden := Some false; ed_color := Some "#64748b";
                  ed_zIndex := Some 10%Z; ed_size := Some 2%Q |}.
Proof.
  apply (related_node_is_linked scenarioGraph filterB "X" [] "Y" "X").
  - vm_compute. reflexivity.
  - by_evaluation.
  - by_evaluation.
  - by_evaluation.
  - vm_compute. reflexivity.
Defined.

End Styling.

(** ** More about the pointer gestures *)

Module GestureFacts.
Import Graphology GraphView Gestures.

(** *** What every handler keeps *)

Lemma sameStructure_refl g : sameStructure g g.
Proof. split; [done|]. intros n. by destruct (g_nodes g !! n). Qed.

Lemma sameStructure_trans g1 g2 g3 :
  sameStructure g1 g2 → sameStructure g2 g3 → sameStructure g1 g3.
Proof.
  intros [He1 Hn1] [He2 Hn2]. split; [congruence|]. intros n.
  specialize (Hn1 n). specialize (Hn2 n).
  destruct (g_nodes g1 !! n), (g_nodes g2 !! n), (g_nodes g3 !! n);
    try done. destruct Hn1 as (? & ? & ?), Hn2 as (? & ? & ?).
  repeat split; congruence.
Qed.

Lemma steady_refl w : steady w w.
Proof. split; [apply sameStructure_refl | done]. Qed.

Lemma steady_trans w1 w2 w3 : steady w1 w2 → steady w2 w3 → steady w1 w3.
Proof.
  intros (Hg1 & Hl1 & Hs1) (Hg2 & Hl2 & Hs2). split; [|split].
  - by eapply sameStructure_trans.
  - congruence.
  - auto.
Qed.

Lemma keeps_ret {A} (a : A) : keeps (mret a).
Proof. intros w. apply steady_refl. Qed.

Lemma keeps_bind {A B} (m : Handler A) (k : A → Handler B) :
  keeps m → (∀ a, keeps (k a)) → keeps (m ≫= k).
Proof.
  intros Hm Hk w. unfold mbind, handler_bind. specialize (Hm w).
  destruct (m w) as [[a|e] w1]; [|done].
  eapply steady_trans; [exact Hm | apply Hk].
Qed.

Lemma keeps_get {A} (proj : World → A) : keeps (get proj).
Proof. intros w. apply steady_refl. Qed.

Lemma keeps_graphRead {A} (op : Graph → result A) : keeps (graphRead op).
Proof. intros w. apply steady_refl. Qed.

Lemma keeps_modify (f : World → World) :
  (∀ w, steady w (f w)) → keeps (modify f).
Proof. intros Hf w. apply Hf. Qed.

Lemma keeps_graphWrite n upd :
  (∀ a, raw (upd a) = raw a ∧ a_size (upd a) = a_size a ∧
        a_importance (upd a) = a_importance a) →
  keeps (graphWrite (λ g, updateNodeAttributes g n upd)).
Proof.
  intros Hupd w. unfold graphWrite, updateNodeAttributes.
  destruct (g_nodes (graph w) !! n) as [a|] eqn:Hn; [|apply steady_refl].
  split; [|done]. split; [done|]. intros m. cbn.
  destruct (decide (n = m)) as [<- | Hne].
  - rewrite lookup_insert_eq, Hn. apply Hupd.
  - rewrite lookup_insert_ne by done. by destruct (g_nodes (graph w) !! m).
Qed.

Lemma steady_aside w w' :
  graph w' = graph w → nodeList w' = nodeList w →
  selectedNodes w' = selectedNodes w → steady w w'.
Proof.
  intros Hg Hl Hs. split; [rewrite Hg; apply sameStructure_refl|].
  split; [done|]. unfold selectionOk. by rewrite Hs, Hl.
Qed.

Lemma handleToggleNode_steady n w :
  listedIn (nodeList w) n → steady w (handleToggleNode n w).
Proof.
  intros Hlisted. unfold handleToggleNode.
  destruct (bool_decide (n ∈ selectedNodes w)) eqn:Hin.
  - split; [apply sameStructure_refl|]. split; [done|].
    intros [Hnodup Hall]. split; cbn.
    + by apply NoDup_filter.
    + intros s Hs. apply list_elem_of_filter in Hs as [_ Hs]. by apply Hall.
  - apply bool_decide_eq_false in Hin.
    split; [apply sameStructure_refl|]. split; [done|].
    intros [Hnodup Hall]. split; cbn.
    + apply NoDup_app. split; [done|]. split; [|apply NoDup_singleton].
      intros s Hs Hs'. apply list_elem_of_singleton in Hs' as ->. done.
    + intros s Hs. apply elem_of_app in Hs as [Hs | Hs]; [by apply Hall|].
      by apply list_elem_of_singleton in Hs as ->.
Qed.

Lemma keeps_renderGraphView : keeps renderGraphView.
Proof. apply keeps_modify. intros w. by apply steady_aside. Qed.

Lemma keeps_setTooltip t : keeps (setTooltip t).
Proof.
  unfold setTooltip. apply keeps_bind; [apply keeps_get|].
  assert (keeps (modify (set_tooltip t) ;; renderGraphView)) as Hset.
  { apply keeps_bind; [|intros _; apply keeps_renderGraphView].
    apply keeps_modify. intros w. by apply steady_aside. }
  intros [cur|]; [exact Hset|]. destruct t; [exact Hset | apply keeps_ret].
Qed.

Lemma keeps_handleGraphToggle n : keeps (handleGraphToggle n).
Proof.
  intros w. unfold handleGraphToggle.
  erewrite bind_ok; [|reflexivity]. cbv beta iota.
  destruct (find _ (nodeList w)) as [target|] eqn:Hfind; [|apply steady_refl].
  apply find_some in Hfind as [Hin _]. rewrite onToggleNode_ok.
  eapply steady_trans; [|by apply steady_aside].
  apply handleToggleNode_steady.
  exists target. split; [by apply list_elem_of_In | done].
Qed.

Section handlers.
Variable viewportToGraph : Z * Z → Q * Q.
Variable getNodeDisplayData : Graph → string → option (Q * Q).

Local Abbreviation handleMouseMove := (handleMouseMove viewportToGraph).
Local Abbreviation handleMouseUp := (handleMouseUp getNodeDisplayData).
Local Abbreviation handleFocus := (handleFocus getNodeDisplayData).
Local Abbreviation run := (run viewportToGraph getNodeDisplayData).
Local Abbreviation dispatch := (dispatch viewportToGraph getNodeDisplayData).

Lemma keeps_handleFocus n : keeps (handleFocus n).
Proof.
  unfold GraphView.handleFocus. apply keeps_bind; [apply keeps_get|].
  intros g. destruct (negb _); [apply keeps_ret|].
  destruct (getNodeDisplayData g n); [|apply keeps_ret].
  apply keeps_modify. intros w. by apply steady_aside.
Qed.

Lemma keeps_handleMouseMove x y : keeps (handleMouseMove x y).
Proof.
  unfold GraphView.handleMouseMove. apply keeps_bind; [apply keeps_get|].
  intros [d|]; [|apply keeps_ret].
  apply keeps_bind.
  - destruct (_ && _); [|apply keeps_ret].
    apply keeps_bind; [apply keeps_modify; intros w; by apply steady_aside|].
    intros _. apply keeps_bind; [apply keeps_graphRead|].
    intros has. apply keeps_bind.
    { destruct (negb has); [by apply keeps_graphWrite | apply keeps_ret]. }
    intros _. apply keeps_bind; [apply keeps_setTooltip|].
    intros _. apply keeps_modify. intros w. by apply steady_aside.
  - intros _. apply keeps_bind; [apply keeps_get|].
    intros cur. destruct (from_option _ _ _); [|apply keeps_ret].
    repeat (apply keeps_bind; [by apply keeps_graphWrite | intros _]).
    by apply keeps_graphWrite.
Qed.

Lemma keeps_handleMouseUp : keeps handleMouseUp.
Proof.
  unfold GraphView.handleMouseUp. apply keeps_bind; [apply keeps_get|].
  intros [d|]; [|apply keeps_ret].
  apply keeps_bind.
  - destruct (isDragging d).
    + apply keeps_bind; [apply keeps_get|]. intros g.
      destruct (hasNode g (nodeId d)); [by apply keeps_graphWrite | apply keeps_ret].
    + apply keeps_bind; [apply keeps_graphRead|]. intros attrs.
      apply keeps_bind; [apply keeps_handleGraphToggle|]. intros _.
      apply keeps_handleFocus.
  - intros _. repeat (apply keeps_bind;
      [apply keeps_modify; intros w; by apply steady_aside | intros _]).
    apply keeps_modify. intros w. by apply steady_aside.
Qed.

Lemma keeps_dispatch ev : keeps (dispatch ev).
Proof.
  destruct ev as [e | x y |]; cbn [GraphView.dispatch].
  - unfold downNode. destruct (from_option _ _ _); [apply keeps_ret|].
    apply keeps_bind; intros; apply keeps_modify; intros w; by apply steady_aside.
  - apply keeps_bind; [apply keeps_get|]. intros [|];
      [apply keeps_handleMouseMove | apply keeps_ret].
  - apply keeps_bind; [apply keeps_get|]. intros [|];
      [apply keeps_handleMouseUp | apply keeps_ret].
Qed.

Lemma keeps_run evs : keeps (run evs).
Proof.
  induction evs as [|ev evs IH]; cbn [GraphView.run]; [apply keeps_ret|].
  apply keeps_bind; [apply keeps_dispatch | done].
Qed.

(** Whatever the pointer events, and whether or not a handler throws
    on the way, the graph keeps its edges and its nodes, and every node
    its dataset record, its size and its importance: the handlers write
    positions, velocities and the pin, nothing else. *)
Theorem gestures_keep_graph_structure evs w :
  sameStructure (graph w) (graph (run evs w).2).
Proof. apply keeps_run. Qed.

(** Whatever the pointer events, the selection stays a set of ids of
    the node list. *)
Theorem gestures_keep_selection_listed evs w :
  selectionOk w → selectionOk (run evs w).2.
Proof. apply keeps_run. Qed.

End handlers.

Lemma gestures_keep_selection_listed_witness :
  selectionOk
    (run pixelsToGraph positionOf
       (gesture "Y" 10 10 [(11, 12)]%Z ++ gesture "X" 0 0 [])%list
       scenarioWorld).2.
Proof.
  apply (gestures_keep_selection_listed pixelsToGraph positionOf).
  vm_compute. split; [constructor|]. intros s Hs. by apply elem_of_nil in Hs.
Defined.

(** *** Events outside a gesture *)

Section idle.
Variable viewportToGraph : Z * Z → Q * Q.
Variable getNodeDisplayData : Graph → string → option (Q * Q).

Local Abbreviation run := (run viewportToGraph getNodeDisplayData).
Local Abbreviation dispatch := (dispatch viewportToGraph getNodeDisplayData).

Lemma unheard_events evs w :
  listening w = false → Forall idleEvent evs →
  run evs w = (Ok (), w).
Proof.
  intros Hidle. induction 1 as [|ev evs Hev _ IH]; [done|].
  cbn [GraphView.run]. erewrite bind_ok; [exact IH|].
  destruct ev as [e | x y |]; cbn [GraphView.dispatch].
  - unfold downNode. cbn in Hev. destruct (button e) as [b|]; [|done].
    cbn in *. by rewrite (proj2 (Z.eqb_neq b 0) Hev).
  - erewrite bind_ok; [|reflexivity]. cbv beta iota. by rewrite Hidle.
  - erewrite bind_ok; [|reflexivity]. cbv beta iota. by rewrite Hidle.
Qed.


End idle.


(** *** A drag, move by move *)

Ltac world_simpl :=
  cbn [graph dragInfoRef listening selectedNodes nodeList camera tooltip cursor
       set_graph set_dragInfoRef set_listening set_selectedNodes set_camera
       set_tooltip set_cursor from_option isDragging startDragging
       nodeId startX startY GraphView.midDragWorld g_nodes g_edges].

Section drag.
Variable viewportToGraph : Z * Z → Q * Q.
Variable getNodeDisplayData : Graph → string → option (Q * Q).

Local Abbreviation handleMouseMove := (handleMouseMove viewportToGraph).
Local Abbreviation handleMouseUp := (handleMouseUp getNodeDisplayData).
Local Abbreviation run := (run viewportToGraph getNodeDisplayData).
Local Abbreviation dispatch := (dispatch viewportToGraph getNodeDisplayData).
Local Abbreviation midDragWorld := (midDragWorld viewportToGraph).
Local Abbreviation afterDragWorld := (afterDragWorld viewportToGraph).

Lemma position_writes_exact n pos w a :
  g_nodes (graph w) !! n = Some a →
  (graphWrite (λ g, updateNodeAttributes g n (set_x pos.1)) ;;
   graphWrite (λ g, updateNodeAttributes g n (set_y pos.2)) ;;
   graphWrite (λ g, updateNodeAttributes g n (set_vx 0)) ;;
   graphWrite (λ g, updateNodeAttributes g n (set_vy 0))) w =
  (Ok (), set_graph {| g_nodes := <[n := dragged pos a]> (g_nodes (graph w));
                       g_edges := g_edges (graph w) |} w).
Proof.
  intros Hn.
  erewrite bind_ok; [|by apply graphWrite_ok].
  erewrite bind_ok; [|apply graphWrite_ok; cbn; by rewrite lookup_insert_eq].
  erewrite bind_ok; [|apply graphWrite_ok; cbn; by rewrite lookup_insert_eq].
  rewrite (graphWrite_ok _ _ (set_vx 0 (set_y pos.2 (set_x pos.1 a))));
    [|cbn; by rewrite lookup_insert_eq].
  cbn. by rewrite !insert_insert_eq.
Qed.

(** The move that takes an armed gesture beyond the threshold: the
    drag is on, and if a tooltip was showing the listeners are gone. *)
Lemma drag_starts n x0 y0 a q w :
  g_nodes (graph w) !! n = Some a → a_fixed a = None →
  ¬ within x0 y0 q →
  handleMouseMove q.1 q.2
    (set_listening true
       (set_dragInfoRef
          (Some {| nodeId := n; startX := x0; startY := y0;
                   isDragging := false |}) w)) =
  (Ok (), match tooltip w with
          | Some _ => set_listening false (midDragWorld n x0 y0 a q w)
          | None => midDragWorld n x0 y0 a q w
          end).
Proof.
  intros Hn Hfixed Hfar. destruct q as [qx qy].
  rewrite <- (beyondThreshold_within n x0 y0 false) in Hfar.
  apply not_false_is_true in Hfar.
  unfold GraphView.handleMouseMove.
  erewrite bind_ok; [|unfold get; cbn; reflexivity]. cbv beta iota.
  rewrite Hfar. cbn [negb andb isDragging].
  destruct (tooltip w) as [t|] eqn:Htip.
  - erewrite bind_ok.
    2:{ erewrite bind_ok; [|reflexivity]. cbv beta iota.
        erewrite bind_ok; cbv beta iota.
        2:{ unfold graphRead, hasNodeAttribute_fixed, getNodeAttributes.
            cbn. rewrite Hn. cbn. rewrite Hfixed. reflexivity. }
        cbn [negb]. rewrite bool_decide_eq_false_2 by (by intros [? ?]).
        cbn [negb].
        erewrite bind_ok; [|by apply graphWrite_ok]. cbv beta iota.
        erewrite bind_ok; [|by apply (setTooltip_showing _ t)].
        cbv beta iota. reflexivity. }
    cbv beta iota.
    erewrite bind_ok; [|reflexivity]. cbv beta iota. world_simpl.
    rewrite (position_writes_exact _ _ _ (set_fixed (Some true) a))
      by (world_simpl; by rewrite lookup_insert_eq).
    unfold GraphView.midDragWorld. cbn. by rewrite insert_insert_eq.
  - erewrite bind_ok.
    2:{ erewrite bind_ok; [|reflexivity]. cbv beta iota.
        erewrite bind_ok; cbv beta iota.
        2:{ unfold graphRead, hasNodeAttribute_fixed, getNodeAttributes.
            cbn. rewrite Hn. cbn. rewrite Hfixed. reflexivity. }
        cbn [negb]. rewrite bool_decide_eq_false_2 by (by intros [? ?]).
        cbn [negb].
        erewrite bind_ok; [|by apply graphWrite_ok]. cbv beta iota.
        erewrite bind_ok; [|by apply setTooltip_hidden].
        cbv beta iota. reflexivity. }
    cbv beta iota.
    erewrite bind_ok; [|reflexivity]. cbv beta iota. world_simpl.
    rewrite (position_writes_exact _ _ _ (set_fixed (Some true) a))
      by (world_simpl; by rewrite lookup_insert_eq).
    unfold GraphView.midDragWorld. cbn. rewrite insert_insert_eq.
    unfold set_graph, set_cursor, set_dragInfoRef, set_listening. cbn.
    by rewrite Htip.
Qed.

Lemma drag_starts_hidden n x0 y0 a q w :
  tooltip w = None →
  g_nodes (graph w) !! n = Some a → a_fixed a = None →
  ¬ within x0 y0 q →
  handleMouseMove q.1 q.2
    (set_listening true
       (set_dragInfoRef
          (Some {| nodeId := n; startX := x0; startY := y0;
                   isDragging := false |}) w)) =
  (Ok (), midDragWorld n x0 y0 a q w).
Proof.
  intros Htip Hn Hfixed Hfar. rewrite (drag_starts n x0 y0 a) by done.
  by rewrite Htip.
Qed.

Lemma drag_starts_showing n x0 y0 a q w t :
  tooltip w = Some t →
  g_nodes (graph w) !! n = Some a → a_fixed a = None →
  ¬ within x0 y0 q →
  handleMouseMove q.1 q.2
    (set_listening true
       (set_dragInfoRef
          (Some {| nodeId := n; startX := x0; startY := y0;
                   isDragging := false |}) w)) =
  (Ok (), set_listening false (midDragWorld n x0 y0 a q w)).
Proof.
  intros Htip Hn Hfixed Hfar. rewrite (drag_starts n x0 y0 a) by done.
  by rewrite Htip.
Qed.

(** A move while the drag is on. *)
Lemma drag_goes_on n x0 y0 a q q' w :
  handleMouseMove q'.1 q'.2 (midDragWorld n x0 y0 a q w) =
  (Ok (), midDragWorld n x0 y0 a q' w).
Proof.
  destruct q' as [qx qy]. unfold GraphView.handleMouseMove.
  erewrite bind_ok; [|unfold get; cbn; reflexivity]. cbv beta iota.
  cbn [negb andb isDragging].
  erewrite bind_ok; [|reflexivity]. cbv beta iota.
  erewrite bind_ok; [|reflexivity]. cbv beta iota. world_simpl.
  rewrite (position_writes_exact _ _ _
             (dragged (viewportToGraph q) (set_fixed (Some true) a)))
    by (world_simpl; by rewrite lookup_insert_eq).
  unfold GraphView.midDragWorld. cbn. by rewrite insert_insert_eq.
Qed.

Lemma drag_run n x0 y0 a w ms : ∀ q q',
  run (moves (ms ++ [q'])) (midDragWorld n x0 y0 a q w) =
  (Ok (), midDragWorld n x0 y0 a q' w).
Proof.
  induction ms as [|m ms IH]; intros q q'; cbn [app moves map].
  - erewrite run_cons_ok; [done|].
    rewrite dispatch_move by done. apply drag_goes_on.
  - erewrite run_cons_ok; [apply IH|].
    rewrite dispatch_move by done. apply drag_goes_on.
Qed.

Lemma press_and_drag w n a x0 y0 ms p :
  tooltip w = None →
  g_nodes (graph w) !! n = Some a → a_fixed a = None →
  Exists (λ q, ¬ within x0 y0 q) (ms ++ [p]) →
  run (press n x0 y0 :: moves (ms ++ [p])) w =
  (Ok (), midDragWorld n x0 y0 a p w).
Proof.
  intros Htip Hn Hfixed Hex.
  erewrite run_cons_ok; [|apply press_ok].
  set (d := {| nodeId := n; startX := x0; startY := y0; isDragging := false |}).
  set (w1 := set_listening true (set_dragInfoRef (Some d) w)).
  induction ms as [|m ms IH]; cbn [app moves map] in *.
  - apply Exists_cons in Hex as [Hfar | Hex]; [|by apply Exists_nil in Hex].
    erewrite run_cons_ok; [done|].
    rewrite dispatch_move by done. by apply drag_starts_hidden.
  - assert (within x0 y0 m ∨ ¬ within x0 y0 m) as [Hnear | Hfar]
      by (unfold within; lia).
    + apply Exists_cons in Hex as [? | Hex]; [done|].
      erewrite run_cons_ok; [by apply IH|].
      rewrite dispatch_move by done.
      apply (move_armed viewportToGraph w1 d); [done..|].
      by apply beyondThreshold_within.
    + erewrite run_cons_ok; [apply drag_run|].
      rewrite dispatch_move by done. by apply drag_starts_hidden.
Qed.

(** While no tooltip is showing: after a press on a node [n] that is
    not pinned, from the first move that leaves the threshold on, the
    world the handlers leave after each move [p] is known exactly: [n]
    is pinned, lies where the pointer is, and has no velocity; the
    cursor is grabbing; nothing else has changed.  Later moves may come
    back within the threshold: the drag goes on. *)
Theorem drag_follows_pointer w n a x0 y0 ms p :
  tooltip w = None →
  g_nodes (graph w) !! n = Some a → a_fixed a = None →
  Exists (λ q, ¬ within x0 y0 q) (ms ++ [p]) →
  run (press n x0 y0 :: moves (ms ++ [p])) w =
  (Ok (), midDragWorld n x0 y0 a p w).
Proof. apply press_and_drag. Qed.

(** While no tooltip is showing, the handlers of a whole drag gesture
    change one thing for good: the position of the dragged node, which
    they leave where the last move put it, at rest and not pinned.  The
    selection and the camera are as before. *)
Theorem drag_moves_only_the_node w n a x0 y0 ms p :
  tooltip w = None →
  g_nodes (graph w) !! n = Some a → a_fixed a = None →
  Exists (λ q, ¬ within x0 y0 q) (ms ++ [p]) →
  run (gesture n x0 y0 (ms ++ [p])) w = (Ok (), afterDragWorld n a p w).
Proof.
  intros Htip Hn Hfixed Hex. unfold gesture.
  change (press n x0 y0 :: moves (ms ++ [p]) ++ [MouseUp])%list
    with ((press n x0 y0 :: moves (ms ++ [p])) ++ [MouseUp])%list.
  rewrite run_app, (press_and_drag w n a x0 y0 ms p) by done.
  erewrite run_cons_ok; [reflexivity|].
  rewrite dispatch_up by done.
  rewrite (up_drag getNodeDisplayData _
             {| nodeId := n; startX := x0; startY := y0; isDragging := true |}
             (dragged (viewportToGraph p) (set_fixed (Some true) a)));
    [|done..|cbn; by rewrite lookup_insert_eq].
  unfold GraphView.afterDragWorld. cbn. rewrite insert_insert_eq.
  destruct a. cbn in Hfixed. subst. reflexivity.
Qed.

(** C8 fails on the code.  A gesture on a node [n] that is not pinned,
    started while a tooltip is showing, as it is whenever the pointer
    rests on a visible node.  The first move [p] that leaves the
    threshold pins [n], puts it under the pointer and clears the
    tooltip; the render of [GraphView] that follows takes both
    listeners off the document.  The moves [rest] and the release reach
    no handler: after the release [n] is still pinned, where [p] put
    it, and [dragInfoRef] still holds the drag. *)
Theorem drag_under_tooltip_stays_pinned w n a t x0 y0 near p rest :
  tooltip w = Some t →
  g_nodes (graph w) !! n = Some a → a_fixed a = None →
  Forall (within x0 y0) near → ¬ within x0 y0 p →
  ∃ w' a', run (gesture n x0 y0 (near ++ p :: rest)) w = (Ok (), w') ∧
    w' = set_listening false (midDragWorld n x0 y0 a p w) ∧
    g_nodes (graph w') !! n = Some a' ∧ a_fixed a' = Some true ∧
    (a_x a', a_y a') = viewportToGraph p ∧
    dragInfoRef w' = Some {| nodeId := n; startX := x0; startY := y0;
                             isDragging := true |} ∧
    listening w' = false.
Proof.
  intros Htip Hn Hfixed Hnear Hfar.
  set (d := {| nodeId := n; startX := x0; startY := y0; isDragging := false |}).
  set (w1 := set_listening true (set_dragInfoRef (Some d) w)).
  exists (set_listening false (midDragWorld n x0 y0 a p w)),
         (dragged (viewportToGraph p) (set_fixed (Some true) a)).
  split.
  { unfold gesture. erewrite run_cons_ok; [|apply press_ok]. fold d w1.
    unfold moves. rewrite map_app, <- app_assoc. fold (moves near).
    rewrite run_app, (run_moves_armed viewportToGraph getNodeDisplayData near w1 d);
      [|done..|].
    2:{ eapply Forall_impl; [exact Hnear|]. intros q Hq.
        by apply beyondThreshold_within. }
    cbn [map app]. erewrite run_cons_ok.
    2:{ rewrite dispatch_move by done. by apply (drag_starts_showing n x0 y0 a p w t). }
    apply unheard_events; [done|].
    apply Forall_app. split; [|by repeat constructor].
    apply Forall_forall. intros ev (q & -> & _)%list_elem_of_fmap. done. }
  split; [done|]. cbn. rewrite lookup_insert_eq.
  split; [done|]. split; [done|]. split; [by destruct (viewportToGraph p)|].
  done.
Qed.

End drag.

Lemma drag_follows_pointer_witness :
  ∃ a, g_nodes (graph scenarioWorld) !! "Y" = Some a ∧
    run pixelsToGraph positionOf
      (press "Y" 10 10 :: moves ([(11, 12); (40, 50)]%Z ++ [(12, 12)%Z])%list)
      scenarioWorld =
    (Ok (), midDragWorld pixelsToGraph "Y" 10 10 a (12, 12)%Z scenarioWorld).
Proof.
  eexists. split; [vm_compute; reflexivity|].
  apply (drag_follows_pointer pixelsToGraph positionOf scenarioWorld "Y").
  - reflexivity.
  - vm_compute. reflexivity.
  - reflexivity.
  - right. left. unfold within. simpl. lia.
Defined.

Lemma drag_moves_only_the_node_witness :
  ∃ a, g_nodes (graph scenarioWorld) !! "Y" = Some a ∧
    run pixelsToGraph positionOf
      (gesture "Y" 10 10 ([(11, 12); (40, 50)]%Z ++ [(12, 12)%Z])%list)
      scenarioWorld =
    (Ok (), afterDragWorld pixelsToGraph "Y" a (12, 12)%Z scenarioWorld).
Proof.
  eexists. split; [vm_compute; reflexivity|].
  apply (drag_moves_only_the_node pixelsToGraph positionOf scenarioWorld "Y").
  - reflexivity.
  - vm_compute. reflexivity.
  - reflexivity.
  - right. left. unfold within. simpl. lia.
Defined.

Lemma drag_under_tooltip_stays_pinned_witness :
  ∃ a, g_nodes (graph scenarioWorld) !! "Y" = Some a ∧
  ∃ w' a',
    run pixelsToGraph positionOf
      (gesture "Y" 10 10 ([(11, 12)]%Z ++ (40, 50)%Z :: [(70, 80)]%Z)%list)
      (set_tooltip (Some "Y") scenarioWorld) = (Ok (), w') ∧
    w' = set_listening false
           (midDragWorld pixelsToGraph "Y" 10 10 a (40, 50)%Z
              (set_tooltip (Some "Y") scenarioWorld)) ∧
    g_nodes (graph w') !! "Y" = Some a' ∧ a_fixed a' = Some true ∧
    (a_x a', a_y a') = pixelsToGraph (40, 50)%Z ∧
    dragInfoRef w' = Some {| nodeId := "Y"; startX := 10; startY := 10;
                             isDragging := true |} ∧
    listening w' = false.
Proof.
  eexists. split; [vm_compute; reflexivity|].
  apply (drag_under_tooltip_stays_pinned pixelsToGraph positionOf
           (set_tooltip (Some "Y") scenarioWorld) "Y" _ "Y").
  - reflexivity.
  - vm_compute. reflexivity.
  - reflexivity.
  - repeat constructor. unfold within. simpl. lia.
  - unfold within. simpl. lia.
Defined.

End GestureFacts.

(** ** The page state *)

Module HomeFacts.
Import Home.

Lemma filter_all {A} (P : A → Prop) `{∀ x, Decision (P x)} (l : list A) :
  (∀ x, x ∈ l → P x) → filter P l = l.
Proof.
  induction l as [|x l IH]; intros Hall; [done|].
  rewrite filter_cons_True by (apply Hall; left).
  f_equal. apply IH. intros y Hy. apply Hall. by right.
Qed.

Lemma handleToggleNode_consistent node st :
  consistent st → consistent (handleToggleNode node st).
Proof.
  intros [Hnodup Hlast]. unfold handleToggleNode.
  destruct (bool_decide (id node ∈ selectedNodes st)) eqn:Hin; split; cbn.
  - by apply NoDup_filter.
  - intros last Hl. apply list_elem_of_filter.
    destruct (bool_decide (id <$> lastSelectedNode st = Some (id node))) eqn:Hsame;
      [done|].
    apply bool_decide_eq_false in Hsame. split; [|by apply Hlast].
    intros Heq. apply Hsame. by rewrite Hl, <- Heq.
  - apply bool_decide_eq_false in Hin. apply NoDup_app. split; [done|].
    split; [|apply NoDup_singleton].
    intros s Hs Hs'. by apply list_elem_of_singleton in Hs' as ->.
  - intros last [= <-]. apply elem_of_app. right. left.
Qed.

(** Through any series of toggles, clears and openings and closings of
    the discovery dialog, the selection has no repeated id and the node
    shown in the detail panel is a selected one. *)
Theorem page_state_consistent actions st :
  consistent st → consistent (foldl act st actions).
Proof.
  revert st. induction actions as [|a actions IH]; intros st Hst; [done|].
  cbn [foldl]. apply IH. destruct a; cbn [act].
  - by apply handleToggleNode_consistent.
  - split; cbn; [constructor | done].
  - done.
  - done.
Qed.

Lemma page_state_consistent_witness :
  consistent (foldl act initial
                [Toggle (sampleNode "A"); Toggle (sampleNode "B"); OpenDiscovery;
                 Toggle (sampleNode "A"); Clear; Toggle (sampleNode "B")]).
Proof.
  apply (page_state_consistent _ initial).
  split; cbn; [constructor | done].
Defined.

(** Selecting a node that was not selected and deselecting it again gives
    back the selection as it was, in the same order; the detail panel,
    whatever it showed before, is closed. *)
Theorem select_then_deselect node st :
  id node ∉ selectedNodes st →
  handleToggleNode node (handleToggleNode node st) =
  {| selectedNodes := selectedNodes st; lastSelectedNode := None;
     isDiscoveryOpen := isDiscoveryOpen st |}.
Proof.
  intros Hnew. unfold handleToggleNode at 2.
  rewrite bool_decide_eq_false_2 by done.
  unfold handleToggleNode. cbn.
  rewrite bool_decide_eq_true_2 by (apply elem_of_app; right; left).
  rewrite bool_decide_eq_true_2 by done. f_equal.
  rewrite filter_app. cbn. rewrite decide_False by (by intros ?).
  rewrite app_nil_r. apply filter_all. intros s Hs ->. done.
Qed.

Lemma select_then_deselect_witness :
  handleToggleNode (sampleNode "B")
    (handleToggleNode (sampleNode "B") (handleToggleNode (sampleNode "A") initial)) =
  {| selectedNodes := selectedNodes (handleToggleNode (sampleNode "A") initial);
     lastSelectedNode := None;
     isDiscoveryOpen := isDiscoveryOpen (handleToggleNode (sampleNode "A") initial) |}.
Proof.
  apply (select_then_deselect (sampleNode "B")
           (handleToggleNode (sampleNode "A") initial)).
  by_evaluation.
Defined.

End HomeFacts.

(** ** The control panel and the callbacks of the graph view *)

Module PanelFacts.
Import Graphology GraphView ControlPanel.

(** *** Sorting by score *)

Lemma byScoreDesc_total a b : byScoreDesc a b = true ∨ byScoreDesc b a = true.
Proof.
  unfold byScoreDesc. rewrite !Qle_bool_iff.
  destruct (Qlt_le_dec (DiscoveryModal.score a) (DiscoveryModal.score b));
    [right; by apply Qlt_le_weak | by left].
Qed.

Lemma byScoreDesc_trans a b c :
  byScoreDesc a b = true → byScoreDesc b c = true → byScoreDesc a c = true.
Proof.
  unfold byScoreDesc. rewrite !Qle_bool_iff. intros Hab Hbc. by eapply Qle_trans.
Qed.

Lemma stableSort_bestFirst l : bestFirst (stableSort byScoreDesc l).
Proof.
  pose proof (stableSort_StronglySorted byScoreDesc byScoreDesc_total
                byScoreDesc_trans l) as Hsorted.
  unfold bestFirst. induction Hsorted as [|a l' Hl' IH Hall]; constructor; [done|].
  eapply Forall_impl; [exact Hall|]. intros b Hb. by apply Qle_bool_iff.
Qed.

(** *** The search box *)

Lemma offered_is_listed toLowerCase includes query nodeList n :
  n ∈ suggestions toLowerCase includes query nodeList → n ∈ nodeList.
Proof.
  unfold suggestions. destruct (bool_decide _); [by intros ?%elem_of_nil|].
  intros Hn. cbn zeta in Hn.
  assert (n ∈ stableSort byScoreDesc
                (List.filter
                   (matchesQuery toLowerCase includes (toLowerCase query))
                   nodeList)) as Hs.
  { eapply elem_of_submseteq; [exact Hn|]. apply sublist_submseteq, sublist_take. }
  apply stableSort_elem_of, list_elem_of_In, filter_In in Hs as [Hs _].
  by apply list_elem_of_In.
Qed.

(** The search box offers nothing for an empty query.  Otherwise it
    offers at most 8 entries of the node list, each matching the query,
    best score first; and a matching entry that is not offered has a
    score no higher than any entry that is. *)
Theorem suggestions_are_best_matches toLowerCase includes searchQuery nodeList :
  let offered := suggestions toLowerCase includes searchQuery nodeList in
  let lower := toLowerCase searchQuery in
  (searchQuery = "" → offered = []) ∧
  (length offered <= 8)%nat ∧
  offered ⊆+ nodeList ∧
  (∀ n, n ∈ offered → matchesQuery toLowerCase includes lower n = true) ∧
  bestFirst offered ∧
  (searchQuery ≠ "" →
   ∀ m, m ∈ nodeList → matchesQuery toLowerCase includes lower m = true →
        m ∈ offered ∨
        ∀ n, n ∈ offered → (DiscoveryModal.score m <= DiscoveryModal.score n)%Q).
Proof.
  cbn zeta. unfold suggestions.
  destruct (bool_decide (searchQuery = "")) eqn:Hq.
  { apply bool_decide_eq_true in Hq. split; [done|]. split; [cbn; lia|].
    split; [apply submseteq_nil_l|]. split; [by intros n Hn%elem_of_nil|].
    split; [constructor | done]. }
  apply bool_decide_eq_false in Hq. cbn zeta.
  set (lower := toLowerCase searchQuery).
  set (found := List.filter (matchesQuery toLowerCase includes lower) nodeList).
  set (sorted := stableSort byScoreDesc found).
  assert (∀ n, n ∈ sorted ↔
               n ∈ nodeList ∧ matchesQuery toLowerCase includes lower n = true)
    as Hsorted.
  { intros n. unfold sorted, found.
    by rewrite stableSort_elem_of, list_elem_of_In, filter_In, <- list_elem_of_In. }
  assert (bestFirst sorted) as Hbest by apply stableSort_bestFirst.
  rewrite <- (take_drop 8 sorted) in Hbest.
  split; [done|]. split; [rewrite length_take; lia|]. split; [|split; [|split]].
  - transitivity sorted; [apply sublist_submseteq, sublist_take|].
    unfold sorted. rewrite stableSort_Permutation. unfold found.
    apply sublist_submseteq. clear.
    induction nodeList as [|n l IH]; cbn; [done|].
    destruct (matchesQuery _ _ _ n); by constructor.
  - intros n Hn. apply Hsorted. eapply elem_of_submseteq; [exact Hn|].
    apply sublist_submseteq, sublist_take.
  - unfold bestFirst in *. by apply StronglySorted_app_1_l in Hbest.
  - intros _ m Hm Hmatch.
    assert (m ∈ (take 8 sorted ++ drop 8 sorted)%list) as Hin
      by (rewrite take_drop; by apply Hsorted).
    apply elem_of_app in Hin as [Hin | Hin]; [by left | right].
    intros n Hn. by apply (StronglySorted_app_1_elem_of _ _ _ n m Hbest).
Qed.

(** *** The list of related titles *)

Lemma asSearchable_ids (nl : list RawNode) :
  DiscoveryModal.id <$> (asSearchable <$> nl) = id <$> nl.
Proof. rewrite <- list_fmap_compose. by apply list_fmap_ext. Qed.

(** Under a selection, the Related list of the panel shows exactly the
    titles of the Active Set that are not selected, each once, best score
    first: every node the graph shows has its entry in the panel. *)
Theorem related_list_is_active_set place layout data :
  ∃ g loadedNodes,
    load place layout data = Ok (g, loadedNodes) ∧
    ∀ f firstId rest,
      let selected := firstId :: rest in
      let related := relatedNodeObjects (asSearchable <$> loadedNodes) selected
                       (activeNodes g f selected) in
      list_to_set (DiscoveryModal.id <$> related)
        = activeNodes g f selected ∖ list_to_set selected ∧
      NoDup (DiscoveryModal.id <$> related) ∧
      bestFirst related.
Proof.
  destruct (LoadedGraph.load_trace place layout data)
    as (g1 & g2 & g & nl & Hload & Hinv1 & Hn2 & _ & _ & Hdom & _).
  exists g, nl. split; [done|]. intros f firstId rest. cbn zeta.
  unfold relatedNodeObjects. cbn [length Nat.eqb].
  set (selected := firstId :: rest). set (visible := activeNodes g f selected).
  set (shown := filter _ (asSearchable <$> nl)).
  assert (∀ x, x ∈ visible → x ∉ selected → listedIn nl x) as Hlisted.
  { intros x Hx Hnot. apply Visibility.active_selected_spec in Hx as [Hfirst Hx].
    destruct Hx as [? | Hall]; [done|].
    destruct (Hall firstId) as (k & e & _ & _ & _ & (attrs & Hattrs & _));
      [left | done |].
    apply (ni_dom _ _ Hinv1). cbn. rewrite <- Hn2.
    apply Hdom. by eexists. }
  split; [|split].
  - apply set_eq. intros x.
    rewrite elem_of_list_to_set, elem_of_difference, elem_of_list_to_set.
    rewrite list_elem_of_fmap. split.
    + intros (n & -> & Hn). apply stableSort_elem_of in Hn.
      by apply list_elem_of_filter in Hn as [? _].
    + intros [Hx Hnot]. destruct (Hlisted x Hx Hnot) as (r & Hr & Hid).
      exists (asSearchable r). split; [done|].
      apply stableSort_elem_of, list_elem_of_filter. cbn. rewrite Hid.
      split; [done|]. apply list_elem_of_fmap. eauto.
  - rewrite (stableSort_Permutation byScoreDesc shown).
    apply (sublist_NoDup _ (DiscoveryModal.id <$> (asSearchable <$> nl))).
    + rewrite asSearchable_ids. apply (ni_nodup _ _ Hinv1).
    + apply fmap_sublist, sublist_filter.
  - apply stableSort_bestFirst.
Qed.

(** *** Choosing a suggestion *)

Lemma listed_find (nl : list RawNode) i :
  listedIn nl i →
  ∃ target, find (λ n, bool_decide (id n = i)) nl = Some target ∧ id target = i.
Proof. apply Gestures.find_listed. Qed.

(** Choosing an entry that the search box offers never removes a title
    from the selection: the title is appended if it was not selected, the
    selection is left alone if it was; the graph is not touched, and the
    search box is emptied. *)
Theorem suggestion_never_deselects getNodeDisplayData toLowerCase includes
    query node w :
  node ∈ suggestions toLowerCase includes query (asSearchable <$> nodeList w) →
  ∃ w', handleSelectSuggestion getNodeDisplayData node w
          = (Ok {| searchQuery := ""; showSuggestions := false |}, w') ∧
    selectedNodes w' =
      (if decide (DiscoveryModal.id node ∈ selectedNodes w)
       then selectedNodes w
       else selectedNodes w ++ [DiscoveryModal.id node])%list ∧
    graph w' = graph w.
Proof.
  intros Hoffered.
  assert (listedIn (nodeList w) (DiscoveryModal.id node)) as Hlisted.
  { pose proof (offered_is_listed toLowerCase includes query
                  (asSearchable <$> nodeList w) node Hoffered) as Hin.
    apply list_elem_of_fmap in Hin as (r & -> & Hr). by exists r. }
  destruct (listed_find _ _ Hlisted) as (target & Hfind & Htarget).
  unfold handleSelectSuggestion.
  erewrite Gestures.bind_ok; [|reflexivity]. cbv beta iota.
  assert (∀ w1, graph w1 = graph w →
            ∃ w2, handleFocus getNodeDisplayData (DiscoveryModal.id node) w1
                    = (Ok (), w2) ∧
                  selectedNodes w2 = selectedNodes w1 ∧ graph w2 = graph w1)
    as Hfocus.
  { intros w1 Hg. unfold handleFocus.
    erewrite Gestures.bind_ok; [|reflexivity]. cbv beta iota.
    destruct (negb _); [by eexists|].
    destruct (getNodeDisplayData _ _); by eexists. }
  destruct (decide (DiscoveryModal.id node ∈ selectedNodes w)) as [Hin | Hout].
  - rewrite bool_decide_eq_true_2 by done. cbn [negb].
    erewrite Gestures.bind_ok; [|reflexivity]. cbv beta iota.
    destruct (Hfocus w eq_refl) as (w2 & Hrun & Hsel & Hg).
    erewrite Gestures.bind_ok; [|exact Hrun]. cbv beta iota.
    exists w2. done.
  - rewrite bool_decide_eq_false_2 by done. cbn [negb].
    erewrite Gestures.bind_ok; cbv beta iota.
    2:{ unfold handleGraphToggle. erewrite Gestures.bind_ok; [|reflexivity].
        cbv beta iota. rewrite Hfind, Htarget. apply Gestures.onToggleNode_ok. }
    assert (handleToggleNode (DiscoveryModal.id node) w =
            set_selectedNodes (selectedNodes w ++ [DiscoveryModal.id node]) w)
      as Htoggle.
    { unfold handleToggleNode. by rewrite bool_decide_eq_false_2. }
    rewrite Htoggle.
    destruct (Hfocus (set_listening false
                        (set_selectedNodes
                           (selectedNodes w ++ [DiscoveryModal.id node]) w))
                eq_refl)
      as (w2 & Hrun & Hsel & Hg).
    erewrite Gestures.bind_ok; [|exact Hrun]. cbv beta iota.
    exists w2. done.
Qed.

Lemma suggestion_never_deselects_witness :
  ∃ w', handleSelectSuggestion positionOf (asSearchable (mkNode "Y" 5 []))
          scenarioWorld
          = (Ok {| searchQuery := ""; showSuggestions := false |}, w') ∧
    selectedNodes w' =
      (if decide (DiscoveryModal.id (asSearchable (mkNode "Y" 5 []))
                    ∈ selectedNodes scenarioWorld)
       then selectedNodes scenarioWorld
       else selectedNodes scenarioWorld
              ++ [DiscoveryModal.id (asSearchable (mkNode "Y" 5 []))])%list ∧
    graph w' = graph scenarioWorld.
Proof.
  apply (suggestion_never_deselects positionOf sameCase occursIn "Y").
  apply list_elem_of_In. vm_compute. left. reflexivity.
Defined.

(** *** Picking a title in the discovery dialog *)

Lemma unheard w : listening w = false → set_listening false w = w.
Proof. intros Hoff. destruct w. cbn in Hoff. by subst. Qed.

Lemma toggle_found i w :
  listening w = false →
  i ∉ selectedNodes w →
  (nl ← get nodeList ;
   match find (λ n, bool_decide (id n = i)) nl with
   | Some target => onToggleNode (id target)
   | None => mret ()
   end) w =
  (Ok (), if bool_decide (i ∈ id <$> nodeList w)
          then set_selectedNodes (selectedNodes w ++ [i]) w else w).
Proof.
  intros Hoff Hnew. erewrite Gestures.bind_ok; [|reflexivity]. cbv beta iota.
  destruct (find _ (nodeList w)) as [target|] eqn:Hfind.
  - apply find_some in Hfind as [Hin Hid]. apply bool_decide_eq_true in Hid.
    rewrite bool_decide_eq_true_2.
    2:{ apply list_elem_of_fmap. exists target.
      split; [done | by apply list_elem_of_In]. }
    rewrite Gestures.onToggleNode_ok. unfold handleToggleNode. rewrite Hid.
    rewrite bool_decide_eq_false_2 by done. by rewrite unheard.
  - rewrite bool_decide_eq_false_2; [done|].
    intros (r & -> & Hr)%list_elem_of_fmap.
    pose proof (find_none _ _ Hfind r (proj1 (list_elem_of_In _ _) Hr)) as Hno.
    cbn in Hno. by apply bool_decide_eq_false in Hno.
Qed.

Lemma toggles_run ids : ∀ w,
  listening w = false →
  NoDup ids → (∀ i, i ∈ ids → i ∉ selectedNodes w) →
  forEachH (λ i,
    nl ← get nodeList ;
    match find (λ n, bool_decide (id n = i)) nl with
    | Some target => onToggleNode (id target)
    | None => mret ()
    end) ids w =
  (Ok (), set_selectedNodes
            (selectedNodes w ++ filter (λ i, i ∈ id <$> nodeList w) ids) w).
Proof.
  induction ids as [|i ids IH]; intros w Hoff Hnodup Hnew.
  - cbn. rewrite app_nil_r. by destruct w.
  - apply NoDup_cons in Hnodup as [Hi Hnodup]. cbn [forEachH].
    erewrite Gestures.bind_ok; [|apply toggle_found; [done | apply Hnew; left]].
    cbv beta iota. rewrite filter_cons.
    destruct (decide (i ∈ id <$> nodeList w)) as [Hin | Hout].
    + rewrite bool_decide_eq_true_2 by done. rewrite IH; [|done|done|].
      * cbn. by rewrite <- app_assoc.
      * intros j Hj. cbn. rewrite elem_of_app, list_elem_of_singleton.
        intros [Hsel | ->]; [|done]. apply (Hnew j); [by right | done].
    + rewrite bool_decide_eq_false_2 by done. apply IH; [done|done|].
      intros j Hj. apply Hnew. by right.
Qed.

Lemma discovery_complete_run ids w :
  NoDup ids →
  handleDiscoveryComplete ids w =
  (Ok (), set_listening false
            (set_selectedNodes (filter (λ i, i ∈ id <$> nodeList w) ids) w)).
Proof.
  intros Hnodup. unfold handleDiscoveryComplete.
  erewrite Gestures.bind_ok; [|reflexivity]. cbv beta iota.
  rewrite toggles_run; [done | done | done |].
  intros i _. cbn. apply not_elem_of_nil.
Qed.

(** Completing a discovery with distinct ids replaces the selection by
    those of the ids that are in the node list, in their order; an id that
    is not listed is passed over.  [GraphView] renders, so the document
    listeners of a gesture are off afterwards; nothing else changes. *)
Theorem discovery_replaces_selection ids w :
  NoDup ids →
  handleDiscoveryComplete ids w =
  (Ok (), set_listening false
            (set_selectedNodes (filter (λ i, i ∈ id <$> nodeList w) ids) w)).
Proof. apply discovery_complete_run. Qed.

Lemma discovery_replaces_selection_witness :
  handleDiscoveryComplete ["Z"; "Q"; "X"] scenarioWorld =
  (Ok (), set_listening false
            (set_selectedNodes
               (filter (λ i, i ∈ id <$> nodeList scenarioWorld) ["Z"; "Q"; "X"])
               scenarioWorld)).
Proof.
  apply (discovery_replaces_selection ["Z"; "Q"; "X"] scenarioWorld).
  by_evaluation.
Defined.

Lemma refreshes_in_pool shuffles (nodeList shown : list SearchableNode) :
  Forall (λ shuffle, ∀ l : list SearchableNode, shuffle l ≡ₚ l) shuffles →
  shown ⊆+ DiscoveryModal.candidates nodeList ∧
    (length shown <= DiscoveryModal.GRID_SIZE)%nat →
  DiscoveryModal.refreshes shuffles nodeList shown
    ⊆+ DiscoveryModal.candidates nodeList.
Proof.
  intros Hperms. revert shown. unfold DiscoveryModal.refreshes.
  induction Hperms as [|shuffle shuffles Hperm _ IH]; intros shown Hshown;
    [by destruct Hshown|].
  cbn [foldl]. apply IH. by apply Discovery.refreshNodes_shown.
Qed.

(** Picking any title of a grid that the discovery dialog shows leaves
    that title as the one selected title, whatever was selected before;
    [GraphView] renders, and nothing else changes. *)
Theorem grid_pick_selects_one shuffles node w :
  Forall (λ shuffle, ∀ l : list SearchableNode, shuffle l ≡ₚ l) shuffles →
  node ∈ DiscoveryModal.refreshes shuffles (asSearchable <$> nodeList w) [] →
  handleDiscoveryComplete [DiscoveryModal.id node] w =
  (Ok (), set_listening false (set_selectedNodes [DiscoveryModal.id node] w)).
Proof.
  intros Hperms Hnode.
  assert (node ∈ asSearchable <$> nodeList w) as Hin.
  { assert (node ∈ DiscoveryModal.candidates (asSearchable <$> nodeList w)) as Hc.
    { eapply elem_of_submseteq; [exact Hnode|].
      apply refreshes_in_pool; [done|]. split; [apply submseteq_nil_l|].
      cbn. unfold DiscoveryModal.GRID_SIZE. lia. }
    apply Discovery.candidates_pool in Hc as [Hc _]. done. }
  rewrite discovery_complete_run by (apply NoDup_singleton).
  rewrite filter_cons_True; [done|].
  apply list_elem_of_fmap in Hin as (r & -> & Hr).
  apply list_elem_of_fmap. by exists r.
Qed.

Lemma grid_pick_selects_one_witness :
  handleDiscoveryComplete [DiscoveryModal.id (asSearchable (mkNode "X" 9 []))]
    scenarioWorld =
  (Ok (), set_listening false
            (set_selectedNodes
               [DiscoveryModal.id (asSearchable (mkNode "X" 9 []))]
               scenarioWorld)).
Proof.
  apply (grid_pick_selects_one [reverse] (asSearchable (mkNode "X" 9 []))
           scenarioWorld).
  - apply Forall_cons. split; [|by apply Forall_nil].
    intros l. apply reverse_Permutation.
  - apply list_elem_of_In. vm_compute. left. reflexivity.
Defined.

End PanelFacts.

(** ** The genre list of the filter dialog *)

Module GenreFacts.
Import GraphView.

Lemma string_leb_compare s1 s2 :
  String.leb s1 s2 = true ↔ String.compare s1 s2 ≠ Gt.
Proof. unfold String.leb. by destruct (String.compare s1 s2). Qed.

Lemma string_compare_trans s1 : ∀ s2 s3,
  String.compare s1 s2 ≠ Gt → String.compare s2 s3 ≠ Gt →
  String.compare s1 s3 ≠ Gt.
Proof.
  induction s1 as [|c1 s1 IH]; intros [|c2 s2] [|c3 s3]; cbn; try done.
  unfold Ascii.compare.
  destruct (N.compare_spec (Ascii.N_of_ascii c1) (Ascii.N_of_ascii c2)) as [E12|L12|G12];
    destruct (N.compare_spec (Ascii.N_of_ascii c2) (Ascii.N_of_ascii c3)) as [E23|L23|G23];
    try done; intros H12 H23.
  - rewrite E12, E23, N.compare_refl. by apply (IH s2).
  - rewrite E12. by apply N.compare_lt_iff in L23 as ->.
  - rewrite <- E23. by apply N.compare_lt_iff in L12 as ->.
  - assert (Ascii.N_of_ascii c1 < Ascii.N_of_ascii c3)%N as L by lia.
    by apply N.compare_lt_iff in L as ->.
Qed.

Lemma string_leb_trans s1 s2 s3 :
  String.leb s1 s2 = true → String.leb s2 s3 = true → String.leb s1 s3 = true.
Proof. rewrite !string_leb_compare. apply string_compare_trans. Qed.

Lemma setAdd_spec g genreSet x :
  x ∈ setAdd g genreSet ↔ x ∈ genreSet ∨ x = g.
Proof.
  unfold setAdd. case_bool_decide as Hin.
  - split; [by left | by intros [? | ->]].
  - by rewrite elem_of_app, list_elem_of_singleton.
Qed.

Lemma setAdd_NoDup g genreSet : NoDup genreSet → NoDup (setAdd g genreSet).
Proof.
  intros Hnodup. unfold setAdd. case_bool_decide as Hin; [done|].
  apply NoDup_app. split_and!; [done | | apply NoDup_singleton].
  by intros x Hx ->%list_elem_of_singleton.
Qed.

(** What one node adds to the set. *)
Lemma nodeGenres_spec gs : ∀ genreSet,
  let genreSet' :=
    foldl (λ genreSet g, if bool_decide (g ≠ "Award Winning")
                         then setAdd g genreSet else genreSet) genreSet gs in
  (NoDup genreSet → NoDup genreSet') ∧
  ∀ x, x ∈ genreSet' ↔ x ∈ genreSet ∨ (x ≠ "Award Winning" ∧ x ∈ gs).
Proof.
  induction gs as [|g gs IH]; intros genreSet; cbn.
  - split; [done|]. intros x. rewrite elem_of_nil. naive_solver.
  - destruct (IH (if bool_decide (g ≠ "Award Winning")
                  then setAdd g genreSet else genreSet)) as [Hnodup Hmem].
    split.
    + intros Hset. apply Hnodup. case_bool_decide; [by apply setAdd_NoDup | done].
    + intros x. rewrite Hmem, elem_of_cons.
      case_bool_decide as Hg; [rewrite setAdd_spec|]; naive_solver.
Qed.

Lemma collectGenres_spec ns : ∀ genreSet,
  let genreSet' :=
    foldl (λ genreSet n,
             foldl (λ genreSet g, if bool_decide (g ≠ "Award Winning")
                                  then setAdd g genreSet else genreSet)
                   genreSet (genres n)) genreSet ns in
  (NoDup genreSet → NoDup genreSet') ∧
  ∀ x, x ∈ genreSet' ↔
       x ∈ genreSet ∨ (x ≠ "Award Winning" ∧ ∃ n, n ∈ ns ∧ x ∈ genres n).
Proof.
  induction ns as [|n ns IH]; intros genreSet; cbn.
  - split; [done|]. intros x. setoid_rewrite elem_of_nil. naive_solver.
  - destruct (nodeGenres_spec (genres n) genreSet) as [Hnodup1 Hmem1].
    cbn zeta in Hnodup1, Hmem1.
    destruct (IH (foldl (λ genreSet g, if bool_decide (g ≠ "Award Winning")
                                       then setAdd g genreSet else genreSet)
                        genreSet (genres n))) as [Hnodup Hmem].
    cbn zeta in Hnodup, Hmem. split; [auto|].
    intros x. rewrite Hmem, Hmem1. setoid_rewrite elem_of_cons. naive_solver.
Qed.

(** The genre list offered by the filter dialog holds every genre that
    some node of the dataset carries, the award marker apart, and nothing
    else; it holds each genre once and is in ascending order. *)
Theorem genre_list_complete_sorted json :
  (∀ g, g ∈ allGenresOf json ↔
        g ≠ "Award Winning" ∧ ∃ n, n ∈ nodes json ∧ g ∈ genres n) ∧
  NoDup (allGenresOf json) ∧
  StronglySorted (λ a b, String.leb a b = true) (allGenresOf json).
Proof.
  destruct (collectGenres_spec (nodes json) []) as [Hnodup Hmem].
  cbn zeta in Hnodup, Hmem. unfold allGenresOf. split_and!.
  - intros g. rewrite stableSort_elem_of. unfold collectGenres.
    rewrite Hmem, elem_of_nil. naive_solver.
  - rewrite stableSort_Permutation. apply Hnodup, NoDup_nil_2.
  - apply stableSort_StronglySorted;
      [apply String.leb_total | apply string_leb_trans].
Qed.

End GenreFacts.
